(** * AxSyncPy: the parallel range downloader of [axsync-multithread.py]

    A shallow embedding of the script's functions and the properties of its
    byte-range partition, reassembly, listing filter and batch loop.

    Conventions of the model.
    - Python integers are [Z]; [//] is [Z.div] (both round towards minus
      infinity), guarded by the [ZeroDivisionError] Python raises.
    - Python [str] is [string]; file contents are [list Byte.byte].
    - An exception is a value of [exn]; a call that may raise returns a
      [result]; code with effects lives in the monad [M], which threads the
      [State] (files on disk, requests sent, lines printed) and keeps the
      state reached when an exception is raised.
    - The network, the HTML parser, [urlparse], the order in which the
      pool's futures complete and the outcome of [os.makedirs] are not part
      of the script: they are the fields of a [World] the functions are run
      in.
    - The worker threads write to files of their own, so the pool is run one
      call after the other, in the order the calls complete. The order of a
      download's range requests within [sent] is therefore that of
      completion, where the script lets them race: no statement below
      depends on it.
    - [open(path, 'wb')] is taken to succeed, the folder of [path] being
      there. What is said of a download that returns is therefore said of
      the runs that return, not that every run does.
    - Left out: the progress bar, which only displays; faults of the local
      disk other than a missing file and a folder that cannot be made; the
      [ValueError] of [ThreadPoolExecutor] for a pool of no workers, which
      the partition step forestalls by raising first. *)

From Stdlib Require Import ZArith Lia Ascii String.
From stdpp Require Import gmap strings list pretty.

(** ** Exceptions and results *)

Inductive exn_class :=
  | ConnectionError | HTTPError | ChunkedEncodingError
  | ValueError | ZeroDivisionError | IndexError | FileNotFoundError
  | KeyboardInterrupt.

(** [except Exception] catches every class but the ones that derive from
    [BaseException] only. *)
Definition is_Exception (c : exn_class) : bool :=
  match c with KeyboardInterrupt => false | _ => true end.

Record exn := Exn { exn_cls : exn_class; exn_msg : string }.

Inductive result (A : Type) :=
  | Ok (a : A)
  | Raise (e : exn).
Arguments Ok {A} a.
Arguments Raise {A} e.

(** ** The byte-range partition ([download_file], lines 42-44) *)

Section Partition.
Local Open Scope Z_scope.

(** [range(n)] *)
Definition range (n : Z) : list Z := Z.of_nat <$> seq 0 (Z.to_nat n).

(** [a // b] *)
Definition floordiv (a b : Z) : result Z :=
  if decide (b = 0)
  then Raise (Exn ZeroDivisionError "integer division or modulo by zero")
  else Ok (a / b).

(** [[(i * chunk_size, (i + 1) * chunk_size - 1) for i in range(num_threads)]] *)
Definition chunk_ranges (chunk_size num_threads : Z) : list (Z * Z) :=
  (λ i, (i * chunk_size, (i + 1) * chunk_size - 1)) <$> range num_threads.

(** [ranges[-1] = (ranges[-1][0], e)] *)
Definition set_last_end (ranges : list (Z * Z)) (e : Z) : result (list (Z * Z)) :=
  match last ranges with
  | None => Raise (Exn IndexError "list index out of range")
  | Some (s, _) => Ok (<[pred (length ranges) := (s, e)]> ranges)
  end.

Definition partition_ranges (total_size num_threads : Z) : result (list (Z * Z)) :=
  match floordiv total_size num_threads with
  | Raise e => Raise e
  | Ok chunk_size =>
      set_last_end (chunk_ranges chunk_size num_threads) (total_size - 1)
  end.

(** Number of bytes an inclusive range [(s, e)] asks for. *)
Definition range_len (r : Z * Z) : Z := r.2 - r.1 + 1.

Definition in_range (x : Z) (r : Z * Z) : Prop := r.1 ≤ x ≤ r.2.

Fixpoint sum_list (l : list Z) : Z :=
  match l with
  | [] => 0
  | x :: l' => x + sum_list l'
  end.

End Partition.

(** ** Strings: the [str] methods and [os.path] functions the script calls *)

(** [s.startswith(p)] and [s.endswith(p)] *)
Definition startswith (s p : string) : bool :=
  bool_decide (String.list_ascii_of_string p `prefix_of` String.list_ascii_of_string s).
Definition endswith (s p : string) : bool :=
  bool_decide (String.list_ascii_of_string p `suffix_of` String.list_ascii_of_string s).

(** [s.lstrip(c)], [s.rstrip(c)] and [s.strip(c)] for a one-character [c] *)
Fixpoint lstrip_char (c : Ascii.ascii) (s : string) : string :=
  match s with
  | EmptyString => EmptyString
  | String a s' => if Ascii.eqb a c then lstrip_char c s' else s
  end.
Definition rstrip_char (c : Ascii.ascii) (s : string) : string :=
  String.rev (lstrip_char c (String.rev s)).
Definition strip_char (c : Ascii.ascii) (s : string) : string :=
  rstrip_char c (lstrip_char c s).

(** [s.split(c)] for a one-character separator [c] *)
Fixpoint split_char (c : Ascii.ascii) (s : string) : list string :=
  match s with
  | EmptyString => [EmptyString]
  | String a s' =>
      if Ascii.eqb a c then EmptyString :: split_char c s'
      else match split_char c s' with
           | [] => [String a EmptyString]
           | seg :: segs => String a seg :: segs
           end
  end.

(** [os.path.join(a, b)] of posixpath *)
Definition os_path_join (a b : string) : string :=
  if startswith b "/" then b
  else if bool_decide (a = "") || endswith a "/" then a +:+ b
  else a +:+ "/" +:+ b.

(** [os.path.basename(p)]: what follows the last ['/'] of [p] *)
Definition os_path_basename (p : string) : string :=
  default "" (last (split_char "/"%char p)).

Definition nl : string := String (Ascii.ascii_of_nat 10) EmptyString.

(** ** State, world and the monad of effects *)

Inductive request :=
  | Head (url : string)
  | GetRange (url : string) (range_header : string)
  | GetPage (url : string).

Record State := {
  files : gmap string (list Byte.byte);   (* regular files, by path *)
  dirs : gset string;                (* names known to be directories *)
  sent : list request;               (* requests sent so far, oldest first *)
  stdout : list string               (* lines printed so far, oldest first *)
}.

(** What a range request is answered with: the status [raise_for_status]
    looks at, the bytes [iter_content] delivers, and the error that cuts the
    stream short after them, if any. *)
Record response := {
  status_error : option exn;
  body : list Byte.byte;
  stream_error : option exn
}.

Record World := {
  (** [requests.head(url)] followed by [int(headers.get('content-length', 0))]:
      the request raises, or the answer carries no such header ([None]) or
      one that [int] reads as the given integer; a header [int] rejects is
      the [Raise] of its [ValueError]. *)
  content_length : string → result (option Z);
  (** [requests.get(url, headers={'Range': 'bytes=start-end', ...}, stream=True)] *)
  requests_get_range : string → Z → Z → result response;
  (** [requests.get(base_url).text] *)
  requests_get_text : string → result string;
  (** [[link.get('href') for link in BeautifulSoup(text).find_all('a')]] *)
  find_all_a_href : string → list (option string);
  (** [urlparse(url).path] *)
  urlparse_path : string → string;
  (** the indices of the futures of one download in the order
      [as_completed] yields them *)
  as_completed : string → nat → list nat;
  (** [open(input_file).read().splitlines()] *)
  read_lines : string → result (list string);
  (** the exception [os.makedirs(path)] raises, if any: [FileNotFoundError]
      for the empty path, [NotADirectoryError] or [FileExistsError] below a
      regular file, [PermissionError], ... *)
  makedirs_error : string → option exn
}.

Definition M (A : Type) : Type := State → State * result A.

Definition ret {A} (a : A) : M A := λ st, (st, Ok a).
Definition raise {A} (e : exn) : M A := λ st, (st, Raise e).
Definition bind {A B} (m : M A) (k : A → M B) : M B :=
  λ st, match m st with
        | (st', Ok a) => k a st'
        | (st', Raise e) => (st', Raise e)
        end.

Notation "'let*' x ':=' m 'in' k" := (bind m (λ x, k))
  (at level 10, x name, m at level 200, k at level 200,
   format "'[v' 'let*'  x  ':='  m  'in' '/' k ']'").
Notation "'exec' m 'then' k" := (bind m (λ _, k))
  (at level 10, m at level 200, k at level 200,
   format "'[v' 'exec'  m  'then' '/' k ']'").

Definition lift_result {A} (r : result A) : M A := λ st, (st, r).

(** [try: m except Exception as e: handler(e)] *)
Definition try_except_Exception {A} (m : M A) (handler : exn → M A) : M A :=
  λ st, match m st with
        | (st', Raise e) =>
            if is_Exception (exn_cls e) then handler e st' else (st', Raise e)
        | r => r
        end.

(** [for x in l: body(x)] *)
Fixpoint for_each {A} (l : list A) (body : A → M unit) : M unit :=
  match l with
  | [] => ret ()
  | x :: l' => exec body x then for_each l' body
  end.

(** A future runs its call to the end and keeps the outcome, exception
    included, for [future.result()]. *)
Definition future_run {A} (m : M A) : M (result A) :=
  λ st, let '(st', r) := m st in (st', Ok r).

Definition send (r : request) : M unit :=
  λ st, ({| files := files st; dirs := dirs st;
            sent := sent st ++ [r]; stdout := stdout st |}, Ok ()).

Definition print (line : string) : M unit :=
  λ st, ({| files := files st; dirs := dirs st;
            sent := sent st; stdout := stdout st ++ [line] |}, Ok ()).

Definition set_files (f : gmap string (list Byte.byte) → gmap string (list Byte.byte)) : M unit :=
  λ st, ({| files := f (files st); dirs := dirs st;
            sent := sent st; stdout := stdout st |}, Ok ()).

(** [open(path, 'wb')]: the file is created, or emptied if it exists (the
    folder of [path] is taken to be there) *)
Definition open_wb (path : string) : M unit := set_files (insert path []).

(** [f.write(data)] on the file opened at [path]; the bytes land in the file
    the handle was opened on, which is no longer reachable by [path] once
    that name has been removed *)
Definition file_write (path : string) (data : list Byte.byte) : M unit :=
  set_files (alter (λ old, old ++ data) path).

(** [open(path, 'rb').read()] *)
Definition read_file (path : string) : M (list Byte.byte) :=
  λ st, match files st !! path with
        | Some data => (st, Ok data)
        | None => (st, Raise (Exn FileNotFoundError path))
        end.

(** [os.remove(path)] *)
Definition os_remove (path : string) : M unit :=
  λ st, match files st !! path with
        | Some _ => set_files (delete path) st
        | None => (st, Raise (Exn FileNotFoundError path))
        end.

(** [os.path.exists(path)] *)
Definition os_path_exists (path : string) : M bool :=
  λ st, (st, Ok (bool_decide (path ∈ dirs st) || bool_decide (is_Some (files st !! path)))).

(** The names that are directories once [os.makedirs(path)] has returned:
    [path], and every parent of it, written with and without the slash that
    follows it ([a], [a/], [a/b] for [a/b]). *)
Fixpoint dir_prefixes_from (seen rest : string) : list string :=
  match rest with
  | EmptyString => [seen]
  | String a rest' =>
      (if Ascii.eqb a "/"
       then (if bool_decide (seen = "") then [] else [seen]) ++ [seen +:+ "/"]
       else [])
      ++ dir_prefixes_from (seen +:+ String a EmptyString) rest'
  end.
Definition dir_prefixes (path : string) : list string :=
  dir_prefixes_from "" path.

(** [os.makedirs(path)]: it raises what the world says it does; else [path]
    and its missing parents are made. *)
Definition os_makedirs (w : World) (path : string) : M unit :=
  match makedirs_error w path with
  | Some e => raise e
  | None =>
      λ st, ({| files := files st;
                dirs := list_to_set (dir_prefixes path) ∪ dirs st;
                sent := sent st; stdout := stdout st |}, Ok ())
  end.

(** ** The script's functions *)

(** [response.raise_for_status()] *)
Definition raise_for_status (r : response) : M unit :=
  match status_error r with
  | Some e => raise e
  | None => ret ()
  end.

(** [f"{file_name}.part{part_number}"] *)
Definition part_name (file_name : string) (part_number : nat) : string :=
  file_name +:+ ".part" +:+ pretty part_number.

(** [f"bytes={start}-{end}"] *)
Definition range_header (start end_ : Z) : string :=
  "bytes=" +:+ pretty start +:+ "-" +:+ pretty end_.

Definition download_chunk (w : World) (url : string) (start end_ : Z)
    (file_name : string) (part_number : nat) : M string :=
  exec send (GetRange url (range_header start end_)) then
  let* response := lift_result (requests_get_range w url start end_) in
  exec raise_for_status response then
  let part_file := part_name file_name part_number in
  exec open_wb part_file then
  exec file_write part_file (body response) then
  exec (match stream_error response with
        | Some e => raise e
        | None => ret ()
        end) then
  ret part_file.

(** The body of the loop of [combine_parts]: one part is read, appended
    and removed. *)
Definition consume_part (file_name part : string) : M unit :=
  let* data := read_file part in
  exec file_write file_name data then
  os_remove part.

Definition combine_parts (file_name : string) (parts : list string) : M unit :=
  exec open_wb file_name then
  for_each parts (consume_part file_name).

(** The pool: every submitted call runs to its end, the calls finishing in
    the order [order]; the outcomes are listed in that order, which is the
    order [as_completed] yields the futures in. *)
Fixpoint run_pool {A} (futures : list (M A)) (order : list nat) : M (list (result A)) :=
  match order with
  | [] => ret []
  | i :: order' =>
      match futures !! i with
      | Some call =>
          let* r := future_run call in
          let* rs := run_pool futures order' in
          ret (r :: rs)
      | None => run_pool futures order'
      end
  end.

(** [for future in as_completed(futures): parts.append(future.result())]:
    the first outcome that is an exception is raised by [result()]. *)
Fixpoint collect_results {A} (outcomes : list (result A)) : result (list A) :=
  match outcomes with
  | [] => Ok []
  | Raise e :: _ => Raise e
  | Ok a :: outcomes' =>
      match collect_results outcomes' with
      | Ok l => Ok (a :: l)
      | Raise e => Raise e
      end
  end.

(** The progress bar only displays: it is left out. *)
Definition download_file (w : World) (url file_name : string) (num_threads : Z) : M unit :=
  exec send (Head url) then
  let* header := lift_result (content_length w url) in
  let total_size := default 0%Z header in
  let* ranges := lift_result (partition_ranges total_size num_threads) in
  let futures :=
    imap (λ i '(start, end_), download_chunk w url start end_ file_name i) ranges in
  let* outcomes := run_pool futures (as_completed w url (length futures)) in
  let* parts := lift_result (collect_results outcomes) in
  exec combine_parts file_name parts then
  print (os_path_basename file_name +:+ " descargado con éxito.").

(** The test of line 80 on [link.get('href')], which is [None] for an anchor
    without the attribute. *)
Definition is_skipped (href : option string) : bool :=
  match href with
  | None => true
  | Some file_name =>
      bool_decide (file_name = "") || startswith file_name "?"
      || endswith file_name "/" || bool_decide (file_name = "../")
  end.

(** The [try] statement of lines 90-93 *)
Definition try_download (w : World) (base_url destination_folder : string)
    (num_threads : Z) (file_name : string) : M unit :=
  let file_url := base_url +:+ file_name in
  let file_path := os_path_join destination_folder file_name in
  try_except_Exception (download_file w file_url file_path num_threads)
    (λ e, print ("Error al descargar " +:+ file_name +:+ ": " +:+ exn_msg e)).

(** The body of the loop over [soup.find_all('a')] *)
Definition download_link (w : World) (base_url destination_folder : string)
    (num_threads : Z) (href : option string) : M unit :=
  match href with
  | Some file_name =>
      if is_skipped href then ret ()
      else try_download w base_url destination_folder num_threads file_name
  | None => ret ()
  end.

Definition download_directory (w : World) (base_url destination_folder : string)
    (num_threads : Z) : M unit :=
  exec send (GetPage base_url) then
  let* text := lift_result (requests_get_text w base_url) in
  let soup := find_all_a_href w text in
  let* dest_exists := os_path_exists destination_folder in
  exec (if dest_exists then ret () else os_makedirs w destination_folder) then
  for_each soup (download_link w base_url destination_folder num_threads).

(** Lines 105-106, on [parsed_url.path] *)
Definition path_segments (path : string) : list string :=
  split_char "/"%char (strip_char "/"%char path).

Definition folder_name (path : string) : string :=
  match path_segments path with
  | [] => "default_folder"
  | seg :: segs => default seg (last segs)
  end.

(** The body of the loop over the URLs *)
Definition process_url (w : World) (base_destination : string) (num_threads : Z)
    (url : string) : M unit :=
  let folder := folder_name (urlparse_path w url) in
  let destination_folder := os_path_join base_destination folder in
  exec print (nl +:+ "Descargando carpeta: " +:+ folder) then
  exec print ("URL: " +:+ url) then
  exec print ("Destino: " +:+ destination_folder) then
  download_directory w url destination_folder num_threads.

Definition process_urls_from_file (w : World) (input_file base_destination : string)
    (num_threads : Z) : M unit :=
  let* urls := lift_result (read_lines w input_file) in
  for_each urls (process_url w base_destination num_threads).

(** The [__main__] block, after [parse_arguments] *)
Definition main (w : World) (input output : string) (threads : Z) : M unit :=
  exec process_urls_from_file w input output threads then
  print (nl +:+ "¡Descarga masiva completada!").

Definition init_state : State :=
  {| files := ∅; dirs := ∅; sent := []; stdout := [] |}.

(** ** Notions the properties are stated with *)

(** The names a listing is downloaded for: the hrefs line 80 lets through,
    in page order. *)
Definition file_links (hrefs : list (option string)) : list string :=
  omap (λ href, if is_skipped href then None else href) hrefs.

Section RangeProperties.
Local Open Scope Z_scope.

(** Each range starts one byte after the end of the one before. *)
Definition contiguous (ranges : list (Z * Z)) : Prop :=
  ∀ (i : nat) r r',
    ranges !! i = Some r → ranges !! S i = Some r' → r'.1 = r.2 + 1.

(** An earlier range lies wholly before a later one. *)
Definition ascending (ranges : list (Z * Z)) : Prop :=
  ∀ (i j : nat) r r', (i < j)%nat →
    ranges !! i = Some r → ranges !! j = Some r' →
    r.1 ≤ r'.1 ∧ r.2 ≤ r'.2 ∧ r.2 < r'.1.

(** No byte offset lies in two ranges. *)
Definition non_overlapping (ranges : list (Z * Z)) : Prop :=
  ∀ (i j : nat) r r' x, i ≠ j →
    ranges !! i = Some r → ranges !! j = Some r' →
    in_range x r → in_range x r' → False.

(** The offsets the ranges hold are those of [[0, total_size - 1]]. *)
Definition covers (ranges : list (Z * Z)) (total_size : Z) : Prop :=
  ∀ x, 0 ≤ x < total_size ↔ ∃ r, r ∈ ranges ∧ in_range x r.

End RangeProperties.

(** The degenerate case in the specification's words: the partition step
    returns one range, the whole file. *)
Definition degenerates_to_single_range (total_size num_threads : Z) : Prop :=
  ∃ r, partition_ranges total_size num_threads = Ok [r] ∧
       r = (0, total_size - 1)%Z.


(** [m] keeps the requests already sent and may send more. *)
Definition sends_more {A} (m : M A) : Prop :=
  ∀ st, sent st `prefix_of` sent (m st).1.

(** Every exception [m] raises is one [except Exception] catches. *)
Definition raises_Exception {A} (m : M A) : Prop :=
  ∀ st st' e, m st = (st', Raise e) → is_Exception (exn_cls e) = true.

(** [st] with one more printed line *)
Definition with_line (st : State) (line : string) : State :=
  {| files := files st; dirs := dirs st; sent := sent st;
     stdout := stdout st ++ [line] |}.

(** The bytes the server sends for the range [r] of [url], and the fact that
    it sends them without an error *)
Definition chunk_body (w : World) (url : string) (r : Z * Z) : list Byte.byte :=
  match requests_get_range w url r.1 r.2 with
  | Ok resp => body resp
  | Raise _ => []
  end.

Definition chunk_served (w : World) (url : string) (r : Z * Z) : Prop :=
  ∃ resp, requests_get_range w url r.1 r.2 = Ok resp ∧
          status_error resp = None ∧ stream_error resp = None.

(** [st] with the files [fs] *)
Definition with_files (st : State) (fs : gmap string (list Byte.byte)) : State :=
  {| files := fs; dirs := dirs st; sent := sent st; stdout := stdout st |}.

(** The contents of the files [parts] of [fs], one after the other *)
Definition contents_of (fs : gmap string (list Byte.byte)) (parts : list string)
    : list Byte.byte :=
  mjoin ((λ part, default [] (fs !! part)) <$> parts).

(** ** Worlds to run the script in *)

(** [data[start : end_ + 1]] when the range is well formed, the whole
    resource otherwise (a server ignores a range header it cannot read) *)
Definition slice (data : list Byte.byte) (start end_ : Z) : list Byte.byte :=
  if decide (0 ≤ start ≤ end_)%Z
  then take (Z.to_nat (end_ - start + 1)) (drop (Z.to_nat start) data)
  else data.

Definition served (data : list Byte.byte) (start end_ : Z) : response :=
  {| status_error := None; body := slice data start end_; stream_error := None |}.

Definition connection_refused : exn := Exn ConnectionError "Connection refused".
Definition not_found : exn := Exn HTTPError "404 Client Error: Not Found".

(** A world of two listings. ["https://example.com/data/archive/"] lists the
    four anchors of the specification's example; every file under it holds
    [data], except ["broken.bin"], whose size request is refused.
    ["https://example.com/down/"] cannot be reached, and every other page is
    empty. Futures complete in the order [order]. Every folder can be made
    but the one of the empty name. *)
Definition archive_url : string := "https://example.com/data/archive/".
Definition down_url : string := "https://example.com/down/".

Definition no_such_folder : exn :=
  Exn FileNotFoundError "[Errno 2] No such file or directory: ''".

Definition makedirs_but_empty (path : string) : option exn :=
  if bool_decide (path = "") then Some no_such_folder else None.

Definition example_world (data : list Byte.byte) (order : list nat)
    (anchors : list (option string)) (urls : list string) : World :=
  {| content_length := λ url,
       if bool_decide (url = archive_url +:+ "broken.bin")
       then Raise connection_refused
       else Ok (Some (Z.of_nat (length data)));
     requests_get_range := λ url start end_, Ok (served data start end_);
     requests_get_text := λ url,
       if bool_decide (url = down_url) then Raise connection_refused
       else if bool_decide (url = archive_url) then Ok "<listing>"
       else Ok "";
     find_all_a_href := λ text,
       if bool_decide (text = "<listing>") then anchors else [];
     urlparse_path := λ url,
       if bool_decide (url = archive_url) then "/data/archive/"
       else if bool_decide (url = down_url) then "/down/"
       else "";
     as_completed := λ _ _, order;
     read_lines := λ _, Ok urls;
     makedirs_error := makedirs_but_empty |}.

Definition spec_anchors : list (option string) :=
  [Some "file1.zip"; Some "../"; Some "?sort=name"; Some "subdir/"].

Definition abcde : list Byte.byte :=
  [Byte.x61; Byte.x62; Byte.x63; Byte.x64; Byte.x65].

(** The unreachable listing first, then the archive *)
Definition down_first : World :=
  example_world abcde [0; 1]%nat spec_anchors [down_url; archive_url].

(** A listing with a file whose size request is refused, then a sound one *)
Definition broken_first : World :=
  example_world abcde [0; 1]%nat [Some "broken.bin"; Some "file1.zip"]
    [archive_url; "https://example.com/other/"].

(** Two artifacts on disk, of one byte each *)
Definition two_parts_state : State :=
  with_files init_state
    (<["out.part0" := [Byte.x61]]> (<["out.part1" := [Byte.x62]]> ∅)).

(** The server holds [data] at [url] and answers every well-formed range
    request with exactly the bytes asked for. *)
Definition honours_ranges (w : World) (url : string) (data : list Byte.byte) : Prop :=
  ∀ start end_ : Z, (0 ≤ start ≤ end_)%Z →
    requests_get_range w url start end_ =
    Ok {| status_error := None;
          body := take (Z.to_nat (end_ - start + 1)) (drop (Z.to_nat start) data);
          stream_error := None |}.

(** What the fetch of the range [r] writes into its part file: nothing when
    the request raises or the status is an error, else the bytes received,
    which are short of the range when the stream is cut. *)
Definition chunk_part (w : World) (url : string) (r : Z * Z)
    : option (list Byte.byte) :=
  match requests_get_range w url r.1 r.2 with
  | Ok resp =>
      match status_error resp with
      | Some _ => None
      | None => Some (body resp)
      end
  | Raise _ => None
  end.

(** What the future of that fetch holds: the name of the part, or the
    exception. *)
Definition chunk_outcome (w : World) (url : string) (r : Z * Z) (part : string)
    : result string :=
  match requests_get_range w url r.1 r.2 with
  | Ok resp =>
      match status_error resp, stream_error resp with
      | Some e, _ => Raise e
      | None, Some e => Raise e
      | None, None => Ok part
      end
  | Raise e => Raise e
  end.

(** The submitted ranges with their indices, in completion order *)
Definition completed (ranges : list (Z * Z)) (order : list nat)
    : list (nat * (Z * Z)) :=
  omap (λ i, (λ r, (i, r)) <$> ranges !! i) order.

(** The range requests of a download, in completion order *)
Definition chunk_requests (url : string) (done : list (nat * (Z * Z)))
    : list request :=
  (λ ir, GetRange url (range_header ir.2.1 ir.2.2)) <$> done.






(** The state after the size request of [url] and nothing else *)
Definition after_head (st : State) (url : string) : State :=
  {| files := files st; dirs := dirs st;
     sent := sent st ++ [Head url]; stdout := stdout st |}.

(** A server whose answer to the range [(2, 4)] is cut off after one byte *)
Definition cut_stream : exn := Exn ChunkedEncodingError "Connection broken".
Definition flaky_world (order : list nat) : World :=
  {| content_length := λ _, Ok (Some 5%Z);
     requests_get_range := λ url start end_,
       if bool_decide (start = 2%Z)
       then Ok {| status_error := None; body := [Byte.x63];
                  stream_error := Some cut_stream |}
       else Ok (served abcde start end_);
     requests_get_text := λ _, Ok "";
     find_all_a_href := λ _, [];
     urlparse_path := λ _, "";
     as_completed := λ _ _, order;
     read_lines := λ _, Ok [];
     makedirs_error := makedirs_but_empty |}.

(** A server that does not announce the size of [abcde] and, like
    [example_world], answers a range it cannot read with the whole of it *)
Definition unsized_world (order : list nat) : World :=
  {| content_length := λ _, Ok None;
     requests_get_range := λ url start end_, Ok (served abcde start end_);
     requests_get_text := λ _, Ok "";
     find_all_a_href := λ _, [];
     urlparse_path := λ _, "";
     as_completed := λ _ _, order;
     read_lines := λ _, Ok [];
     makedirs_error := makedirs_but_empty |}.

(** * Properties *)

(** ** The byte-range partition *)

Section PartitionFacts.
Local Open Scope Z_scope.

Lemma range_snoc (n : Z) : 1 ≤ n → range n = range (n - 1) ++ [n - 1].
Proof.
  intros Hn. unfold range.
  replace (Z.to_nat n) with (S (Z.to_nat (n - 1))) by lia.
  rewrite seq_S, fmap_app. simpl. do 2 f_equal. lia.
Qed.

Lemma range_length (n : Z) : length (range n) = Z.to_nat n.
Proof. unfold range. by rewrite length_fmap, length_seq. Qed.

Lemma range_lookup (n : Z) (i : nat) (x : Z) :
  range n !! i = Some x ↔ (i < Z.to_nat n)%nat ∧ x = Z.of_nat i.
Proof.
  unfold range. rewrite list_lookup_fmap, fmap_Some. split.
  - intros (k & [-> Hk]%lookup_seq & ->). auto.
  - intros [Hi ->]. exists i. split; [|done]. by apply lookup_seq.
Qed.

Lemma chunk_ranges_length (c n : Z) : length (chunk_ranges c n) = Z.to_nat n.
Proof. unfold chunk_ranges. by rewrite length_fmap, range_length. Qed.

Lemma chunk_ranges_lookup (c n : Z) (i : nat) (r : Z * Z) :
  chunk_ranges c n !! i = Some r ↔
  (i < Z.to_nat n)%nat ∧ r = (Z.of_nat i * c, (Z.of_nat i + 1) * c - 1).
Proof.
  unfold chunk_ranges. rewrite list_lookup_fmap, fmap_Some. split.
  - intros (x & [Hi ->]%range_lookup & ->). auto.
  - intros [Hi ->]. exists (Z.of_nat i). split; [|done]. by apply range_lookup.
Qed.

(** The list the partition step computes, in closed form: the even chunks,
    then the last range stretched to the end of the file. *)
Lemma partition_ranges_closed (total_size num_threads : Z) :
  1 ≤ num_threads →
  partition_ranges total_size num_threads =
  Ok (chunk_ranges (total_size / num_threads) (num_threads - 1)
      ++ [((num_threads - 1) * (total_size / num_threads), total_size - 1)]).
Proof.
  intros Hn. unfold partition_ranges, floordiv.
  destruct (decide (num_threads = 0)) as [->|_]; [lia|].
  set (c := total_size / num_threads).
  unfold set_last_end, chunk_ranges. rewrite (range_snoc num_threads) by done.
  rewrite fmap_app. simpl. rewrite last_snoc, length_app. simpl.
  rewrite Nat.add_1_r. simpl.
  rewrite insert_app_r_alt by done. rewrite Nat.sub_diag. done.
Qed.

Lemma partition_ranges_lookup (total_size num_threads : Z) ranges (i : nat) r :
  1 ≤ num_threads →
  partition_ranges total_size num_threads = Ok ranges →
  ranges !! i = Some r ↔
  (i < Z.to_nat num_threads)%nat ∧
  r = (Z.of_nat i * (total_size / num_threads),
       if decide (Z.of_nat i = num_threads - 1) then total_size - 1
       else (Z.of_nat i + 1) * (total_size / num_threads) - 1).
Proof.
  intros Hn. rewrite partition_ranges_closed by done. intros [= <-].
  set (c := total_size / num_threads).
  destruct (decide (i < Z.to_nat (num_threads - 1))%nat) as [Hi|Hi].
  - rewrite lookup_app_l by (by rewrite chunk_ranges_length).
    rewrite chunk_ranges_lookup. case_decide; [lia|].
    split; intros [? ->]; split; auto; lia.
  - rewrite lookup_app_r by (rewrite chunk_ranges_length; lia).
    rewrite chunk_ranges_length.
    destruct (decide (i = Z.to_nat (num_threads - 1))) as [->|Hne].
    + rewrite Nat.sub_diag. simpl. case_decide; [|lia].
      replace (Z.of_nat (Z.to_nat (num_threads - 1))) with (num_threads - 1) by lia.
      split; [intros [= <-]; split; [lia|done] | intros [_ ->]; done].
    + destruct (i - Z.to_nat (num_threads - 1))%nat as [|k] eqn:Hk; [lia|].
      simpl. rewrite lookup_nil. split; [done|]. intros [? _]. lia.
Qed.

Lemma partition_ranges_length (total_size num_threads : Z) ranges :
  1 ≤ num_threads →
  partition_ranges total_size num_threads = Ok ranges →
  length ranges = Z.to_nat num_threads.
Proof.
  intros Hn. rewrite partition_ranges_closed by done. intros [= <-].
  rewrite length_app, chunk_ranges_length. simpl. lia.
Qed.

Lemma sum_list_app (l1 l2 : list Z) :
  sum_list (l1 ++ l2) = sum_list l1 + sum_list l2.
Proof. induction l1 as [|x l1 IH]; simpl; lia. Qed.

Lemma sum_chunk_ranges (c n : Z) :
  0 ≤ n → sum_list (range_len <$> chunk_ranges c n) = n * c.
Proof.
  intros Hn. rewrite <- (Z2Nat.id n) at 2 by done.
  unfold chunk_ranges, range. generalize (Z.to_nat n) as k. clear.
  induction k as [|k IH]; [done|].
  rewrite seq_S, !fmap_app, sum_list_app, IH. simpl.
  unfold range_len. simpl. lia.
Qed.

Lemma chunk_ranges_zero (n : Z) :
  chunk_ranges 0 n = replicate (Z.to_nat n) (0, -1).
Proof.
  apply list_eq. intros i.
  destruct (decide (i < Z.to_nat n)%nat) as [Hi|Hi].
  - transitivity (Some (0, -1)).
    + apply chunk_ranges_lookup. split; [done|]. f_equal; lia.
    + symmetry. by apply lookup_replicate.
  - rewrite !(proj2 (lookup_ge_None _ _)); [done| |].
    + rewrite length_replicate. lia.
    + rewrite chunk_ranges_length. lia.
Qed.

End PartitionFacts.

Section PartitionTheorems.
Local Open Scope Z_scope.

Example partition_1000_4 :
  partition_ranges 1000 4 = Ok [(0, 249); (250, 499); (500, 749); (750, 999)].
Proof. reflexivity. Qed.

Example partition_10_3 : partition_ranges 10 3 = Ok [(0, 2); (3, 5); (6, 9)].
Proof. reflexivity. Qed.

Example partition_2_4 :
  partition_ranges 2 4 = Ok [(0, -1); (0, -1); (0, -1); (0, 1)].
Proof. reflexivity. Qed.

Example partition_no_threads :
  partition_ranges 10 0 =
  Raise (Exn ZeroDivisionError "integer division or modulo by zero").
Proof. reflexivity. Qed.

Example partition_negative_threads :
  partition_ranges 10 (-2) = Raise (Exn IndexError "list index out of range").
Proof. reflexivity. Qed.

Lemma chunk_size_bounds (total_size num_threads : Z) :
  0 ≤ total_size → 1 ≤ num_threads →
  0 ≤ total_size / num_threads ∧
  num_threads * (total_size / num_threads) ≤ total_size.
Proof.
  intros Ht Hn. split.
  - apply Z.div_pos; lia.
  - apply Z.mul_div_le. lia.
Qed.

(** C2. For [total_size >= 0] and [num_threads >= 1] the partition step
    returns [num_threads] ranges that are contiguous, in ascending order and
    pairwise non-overlapping, that hold exactly the offsets of
    [[0, total_size - 1]], and whose lengths add up to [total_size]. *)
Theorem partition_is_exact (total_size num_threads : Z) :
  0 ≤ total_size → 1 ≤ num_threads →
  ∃ ranges,
    partition_ranges total_size num_threads = Ok ranges ∧
    length ranges = Z.to_nat num_threads ∧
    contiguous ranges ∧
    ascending ranges ∧
    non_overlapping ranges ∧
    covers ranges total_size ∧
    sum_list (range_len <$> ranges) = total_size.
Proof.
  intros Ht Hn.
  destruct (chunk_size_bounds total_size num_threads Ht Hn) as [Hc Hle].
  pose proof (partition_ranges_closed total_size num_threads Hn) as Hclosed.
  eexists. split; [exact Hclosed|].
  pose proof (λ i r, partition_ranges_lookup total_size num_threads _ i r Hn Hclosed)
    as Hlook.
  set (c := total_size / num_threads) in *.
  assert (Hasc : ascending
    (chunk_ranges c (num_threads - 1) ++ [((num_threads - 1) * c, total_size - 1)])).
  { intros i j r r' Hij [Hi ->]%Hlook [Hj ->]%Hlook. simpl.
    case_decide; [lia|]. case_decide; nia. }
  split; [by eapply partition_ranges_length|].
  split; [|split; [exact Hasc|split; [|split]]].
  - intros i r r' [Hi ->]%Hlook [Hj ->]%Hlook. simpl.
    case_decide; [lia|]. lia.
  - intros i j r r' x Hne Hr Hr' [Hx1 Hx2] [Hx1' Hx2'].
    destruct (decide (i < j)%nat) as [Hlt|Hge].
    + destruct (Hasc i j r r' Hlt Hr Hr') as (_ & _ & ?). lia.
    + assert (Hlt : (j < i)%nat) by lia.
      destruct (Hasc j i r' r Hlt Hr' Hr) as (_ & _ & ?). lia.
  - intros x. split.
    + intros Hx.
      destruct (decide (x < (num_threads - 1) * c)) as [Hin|Hlast].
      * assert (0 < c) by nia.
        assert (Hq : 0 ≤ x / c < num_threads - 1).
        { split; [apply Z.div_pos; lia|]. apply Z.div_lt_upper_bound; lia. }
        pose proof (Z.div_mod x c ltac:(lia)) as Hdm.
        pose proof (Z.mod_pos_bound x c ltac:(lia)) as Hmod.
        exists (x / c * c, (x / c + 1) * c - 1). split.
        -- apply list_elem_of_lookup. exists (Z.to_nat (x / c)).
           apply Hlook. split; [lia|].
           rewrite Z2Nat.id by lia. case_decide; [lia|done].
        -- unfold in_range. simpl. lia.
      * exists ((num_threads - 1) * c, total_size - 1). split.
        -- apply list_elem_of_lookup. exists (Z.to_nat (num_threads - 1)).
           apply Hlook. split; [lia|].
           rewrite Z2Nat.id by lia. case_decide; [done|lia].
        -- unfold in_range. simpl. lia.
    + intros (r & [i [Hi ->]%Hlook]%list_elem_of_lookup & [Hx1 Hx2]).
      simpl in *. case_decide; nia.
  - rewrite fmap_app, sum_list_app, sum_chunk_ranges by lia.
    unfold range_len. simpl. lia.
Qed.

Lemma partition_is_exact_witness :
  ∃ ranges,
    partition_ranges 10 3 = Ok ranges ∧
    length ranges = Z.to_nat 3 ∧
    contiguous ranges ∧ ascending ranges ∧ non_overlapping ranges ∧
    covers ranges 10 ∧ sum_list (range_len <$> ranges) = 10.
Proof. apply (partition_is_exact 10 3); lia. Defined.

(** C6. For [num_threads >= 1] the last range the partition step returns
    ends at [total_size - 1], whatever remainder the division leaves. *)
Theorem last_range_ends_at_total (total_size num_threads : Z) :
  0 ≤ total_size → 1 ≤ num_threads →
  ∃ ranges start,
    partition_ranges total_size num_threads = Ok ranges ∧
    last ranges = Some (start, total_size - 1).
Proof.
  intros _ Hn. do 2 eexists. split.
  - by apply partition_ranges_closed.
  - by rewrite last_snoc.
Qed.

Lemma last_range_ends_at_total_witness :
  ∃ ranges start,
    partition_ranges 10 3 = Ok ranges ∧ last ranges = Some (start, 10 - 1).
Proof. apply (last_range_ends_at_total 10 3); lia. Defined.

(** C3, as the code has it. For [num_threads >= 1] the partition step raises
    nothing; with one thread it returns the single range
    [[0, total_size - 1]]; for an empty resource it returns [num_threads]
    ranges, each the zero-length [[0, -1]]. *)
Theorem partition_degenerate (total_size num_threads : Z) :
  1 ≤ num_threads →
  (∃ ranges, partition_ranges total_size num_threads = Ok ranges) ∧
  (num_threads = 1 →
     partition_ranges total_size num_threads = Ok [(0, total_size - 1)]) ∧
  (total_size = 0 →
     partition_ranges total_size num_threads =
       Ok (replicate (Z.to_nat num_threads) (0, -1)) ∧
     range_len (0, -1) = 0).
Proof.
  intros Hn. rewrite partition_ranges_closed by done.
  split; [eauto|split].
  - intros ->. simpl. by rewrite Z.div_1_r.
  - intros ->. split; [|done]. rewrite Z.div_0_l by lia. f_equal.
    replace (Z.to_nat num_threads) with (Z.to_nat (num_threads - 1) + 1)%nat by lia.
    rewrite replicate_add. simpl. rewrite Z.mul_0_r. f_equal.
    apply chunk_ranges_zero.
Qed.

Lemma partition_degenerate_witness :
  (∃ ranges, partition_ranges 0 8 = Ok ranges) ∧
  (8 = 1 → partition_ranges 0 8 = Ok [(0, 0 - 1)]) ∧
  (0 = 0 →
     partition_ranges 0 8 = Ok (replicate (Z.to_nat 8) (0, -1)) ∧
     range_len (0, -1) = 0).
Proof. apply (partition_degenerate 0 8); lia. Defined.

(** An empty resource fetched with eight threads is cut into eight ranges,
    not one. *)
Lemma empty_file_eight_ranges : ¬ degenerates_to_single_range 0 8.
Proof. intros (r & Hr & _). vm_compute in Hr. discriminate. Qed.

End PartitionTheorems.

(** ** Strings *)

Lemma append_cons (a : Ascii.ascii) (s t : string) :
  String a s +:+ t = String a (s +:+ t).
Proof. reflexivity. Qed.

Lemma list_ascii_of_append (s t : string) :
  String.list_ascii_of_string (s +:+ t) =
  String.list_ascii_of_string s ++ String.list_ascii_of_string t.
Proof.
  induction s as [|a s IH]; [done|].
  rewrite append_cons. simpl. by rewrite IH.
Qed.

Lemma list_ascii_of_string_inj (s t : string) :
  String.list_ascii_of_string s = String.list_ascii_of_string t → s = t.
Proof.
  intros H. rewrite <- (String.string_of_list_ascii_of_string s),
    <- (String.string_of_list_ascii_of_string t). by rewrite H.
Qed.

Lemma startswith_spec (s p : string) :
  startswith s p = true ↔ ∃ t, s = p +:+ t.
Proof.
  unfold startswith. rewrite bool_decide_eq_true. split.
  - intros [k Hk]. exists (String.string_of_list_ascii k).
    apply list_ascii_of_string_inj.
    by rewrite list_ascii_of_append, String.list_ascii_of_string_of_list_ascii.
  - intros [t ->]. exists (String.list_ascii_of_string t).
    apply list_ascii_of_append.
Qed.

Lemma endswith_spec (s p : string) :
  endswith s p = true ↔ ∃ t, s = t +:+ p.
Proof.
  unfold endswith. rewrite bool_decide_eq_true. split.
  - intros [k Hk]. exists (String.string_of_list_ascii k).
    apply list_ascii_of_string_inj.
    by rewrite list_ascii_of_append, String.list_ascii_of_string_of_list_ascii.
  - intros [t ->]. exists (String.list_ascii_of_string t).
    apply list_ascii_of_append.
Qed.

Lemma split_char_nonempty (c : Ascii.ascii) (s : string) : split_char c s ≠ [].
Proof.
  destruct s as [|a s]; simpl; [done|].
  destruct (Ascii.eqb a c); [done|]. by destruct (split_char c s).
Qed.

Lemma append_length (s t : string) :
  String.length (s +:+ t) = String.length s + String.length t.
Proof.
  induction s as [|a s IH]; [done|]. rewrite append_cons. simpl. by rewrite IH.
Qed.

Lemma part_name_inj (file_name : string) : Inj (=) (=) (part_name file_name).
Proof.
  intros i j H. unfold part_name in H.
  apply (inj (String.app file_name)) in H.
  apply (inj (String.app ".part")) in H.
  by apply (inj pretty) in H.
Qed.

Lemma part_name_ne (file_name : string) (i : nat) :
  part_name file_name i ≠ file_name.
Proof.
  intros H. apply (f_equal String.length) in H.
  unfold part_name in H. rewrite !append_length in H. simpl in H. lia.
Qed.

(** ** The listing filter *)

Lemma is_skipped_false (name : string) :
  is_skipped (Some name) = false ↔
  name ≠ "" ∧ (∀ t, name ≠ "?" +:+ t) ∧ (∀ t, name ≠ t +:+ "/") ∧ name ≠ "../".
Proof.
  simpl. rewrite !orb_false_iff, !bool_decide_eq_false.
  rewrite <- !not_true_iff_false, startswith_spec, endswith_spec.
  split.
  - intros [[[? Hq] Hs] ?]. repeat split; [done| | |done].
    + intros t ->. apply Hq. eauto.
    + intros t ->. apply Hs. eauto.
  - intros (? & Hq & Hs & ?). repeat split; [done| | |done].
    + intros [t ->]. by apply (Hq t).
    + intros [t ->]. by apply (Hs t).
Qed.

Lemma elem_of_file_links (hrefs : list (option string)) (name : string) :
  name ∈ file_links hrefs ↔ Some name ∈ hrefs ∧ is_skipped (Some name) = false.
Proof.
  unfold file_links. rewrite list_elem_of_omap. split.
  - intros (href & Hin & Hsome).
    destruct (is_skipped href) eqn:Hskip; [done|]. subst href. auto.
  - intros [Hin Hskip]. exists (Some name). by rewrite Hskip.
Qed.

Lemma for_each_cons {A} (x : A) (l : list A) (body : A → M unit) st :
  for_each (x :: l) body st =
  match body x st with
  | (st', Ok _) => for_each l body st'
  | (st', Raise e) => (st', Raise e)
  end.
Proof. reflexivity. Qed.

(** The loop over the anchors downloads the file links, in page order, and
    does nothing for the other anchors. *)
Lemma for_each_download_link w base_url destination_folder num_threads hrefs st :
  for_each hrefs (download_link w base_url destination_folder num_threads) st =
  for_each (file_links hrefs)
    (try_download w base_url destination_folder num_threads) st.
Proof.
  revert st. induction hrefs as [|href hrefs IH]; intros st; [done|].
  rewrite for_each_cons.
  destruct href as [name|]; [|apply IH].
  unfold download_link at 1.
  change (file_links (Some name :: hrefs)) with
    (match (if is_skipped (Some name) then None else Some name) with
     | Some y => y :: file_links hrefs
     | None => file_links hrefs
     end).
  destruct (is_skipped (Some name)); [apply IH|].
  rewrite for_each_cons.
  destruct (try_download _ _ _ _ _ st) as [st' [[]|e]]; [apply IH|done].
Qed.

(** C9. The names [download_directory] downloads are exactly the hrefs of
    the page's anchors that are not empty, do not start with ['?'], do not
    end with ['/'] and are not ['../']; of the anchors [file1.zip], [../],
    [?sort=name] and [subdir/] only [file1.zip] is kept. *)
Theorem listing_filter :
  (∀ (hrefs : list (option string)) (name : string),
     name ∈ file_links hrefs ↔
     Some name ∈ hrefs ∧ name ≠ "" ∧ (∀ t, name ≠ "?" +:+ t) ∧
     (∀ t, name ≠ t +:+ "/") ∧ name ≠ "../") ∧
  (∀ w base_url destination_folder num_threads hrefs st,
     for_each hrefs (download_link w base_url destination_folder num_threads) st =
     for_each (file_links hrefs)
       (try_download w base_url destination_folder num_threads) st) ∧
  file_links [Some "file1.zip"; Some "../"; Some "?sort=name"; Some "subdir/"]
  = ["file1.zip"].
Proof.
  split; [|split].
  - intros hrefs name. by rewrite elem_of_file_links, is_skipped_false.
  - intros. apply for_each_download_link.
  - reflexivity.
Qed.

(** ** The destination folder *)

(** C5, at the input that fails. The list [split] returns is never empty, so
    the fallback of line 106 is never taken: the folder name is always the
    last segment, which is the empty string for an empty path; the path
    [/data/archive/] gives [archive]. A URL without a path is downloaded
    into the base destination itself. *)
Theorem folder_name_of_empty_path :
  (∀ path, path_segments path ≠ []) ∧
  (∀ path, folder_name path = default "" (last (path_segments path))) ∧
  folder_name "" = "" ∧
  folder_name "/" = "" ∧
  folder_name "/data/archive/" = "archive" ∧
  stdout (process_url down_first "dest" 2 "https://example.com" init_state).1 =
    [nl +:+ "Descargando carpeta: "; "URL: https://example.com"; "Destino: dest/"].
Proof.
  split; [|split; [|by vm_compute]].
  - intros path. apply split_char_nonempty.
  - intros path. unfold folder_name.
    pose proof (split_char_nonempty "/" (strip_char "/" path)) as Hne.
    unfold path_segments.
    destruct (split_char "/" (strip_char "/" path)) as [|seg segs]; [done|].
    destruct segs as [|seg' segs]; [done|]. simpl.
    by destruct (last (seg' :: segs)) eqn:E;
      [|apply last_None in E].
Qed.

(** ** Reassembly *)

Lemma consume_part_eq (file_name part : string) (st : State) :
  consume_part file_name part st =
  match files st !! part with
  | Some data =>
      (with_files st (delete part (alter (λ old, old ++ data) file_name (files st))),
       Ok ())
  | None => (st, Raise (Exn FileNotFoundError part))
  end.
Proof.
  unfold consume_part, bind, read_file.
  destruct (files st !! part) as [data|] eqn:Hpart; [|done].
  unfold file_write, set_files, os_remove. simpl.
  destruct (alter _ file_name (files st) !! part) eqn:Halt; [done|].
  apply lookup_alter_None in Halt. congruence.
Qed.

(** A part that has been consumed is gone, and no file appears. *)
Lemma consume_part_removes (file_name part : string) (st st' : State) :
  consume_part file_name part st = (st', Ok ()) →
  files st' !! part = None ∧
  ∀ q, files st !! q = None → files st' !! q = None.
Proof.
  rewrite consume_part_eq. destruct (files st !! part) as [data|]; [|done].
  intros [= <-]. simpl. split; [apply lookup_delete_eq|].
  intros q Hq. apply lookup_delete_None. right. by apply lookup_alter_None.
Qed.

Lemma for_each_consume_removes (file_name : string) (parts : list string) st st' :
  for_each parts (consume_part file_name) st = (st', Ok ()) →
  (∀ p, p ∈ parts → files st' !! p = None) ∧
  (∀ q, files st !! q = None → files st' !! q = None).
Proof.
  revert st. induction parts as [|part parts IH]; intros st.
  - intros [= <-]. split; [|done]. intros p Hp. by apply elem_of_nil in Hp.
  - rewrite for_each_cons.
    destruct (consume_part file_name part st) as [st1 [[]|e]] eqn:Hstep; [|done].
    intros Hrest. apply consume_part_removes in Hstep as [Hgone Hkeep].
    apply IH in Hrest as [Hall Hkeep']. split; [|by auto].
    intros p [->|Hp]%elem_of_cons; auto.
Qed.

Lemma contents_of_agree (fs fs' : gmap string (list Byte.byte)) parts :
  (∀ p, p ∈ parts → fs' !! p = fs !! p) →
  contents_of fs' parts = contents_of fs parts.
Proof.
  intros H. unfold contents_of. f_equal. apply list_fmap_ext.
  intros i p Hp. rewrite H; [done|]. by eapply list_elem_of_lookup_2.
Qed.

(** The loop of [combine_parts] on parts that exist, are pairwise distinct
    and are not the destination: it ends, the destination has grown by the
    parts' contents in list order, the parts are gone, and nothing else has
    changed. *)
Lemma for_each_consume_ok (file_name : string) (parts : list string) st acc :
  NoDup parts → file_name ∉ parts →
  (∀ p, p ∈ parts → is_Some (files st !! p)) →
  files st !! file_name = Some acc →
  ∃ st',
    for_each parts (consume_part file_name) st = (st', Ok ()) ∧
    files st' !! file_name = Some (acc ++ contents_of (files st) parts) ∧
    (∀ p, p ∈ parts → files st' !! p = None) ∧
    (∀ q, q ∉ parts → q ≠ file_name → files st' !! q = files st !! q) ∧
    dirs st' = dirs st ∧ sent st' = sent st ∧ stdout st' = stdout st.
Proof.
  revert st acc. induction parts as [|part parts IH]; intros st acc Hnd Hf Hex Hacc.
  - exists st. unfold contents_of. simpl. rewrite app_nil_r.
    repeat split; auto. intros p Hp. by apply elem_of_nil in Hp.
  - apply NoDup_cons in Hnd as [Hpart Hnd].
    apply not_elem_of_cons in Hf as [Hne Hf].
    rewrite for_each_cons, consume_part_eq.
    destruct (Hex part) as [data Hdata]; [left|]. rewrite Hdata.
    set (st1 := with_files st _).
    assert (Hsame : ∀ q, q ≠ part → q ≠ file_name →
              files st1 !! q = files st !! q).
    { intros q ? ?. simpl. by rewrite lookup_delete_ne, lookup_alter_ne. }
    destruct (IH st1 (acc ++ data)) as (st' & Hrun & Hdest & Hgone & Hother & ? & ? & ?);
      [done|done| |  |].
    + intros p Hp. rewrite Hsame; [apply Hex; by right| |]; congruence.
    + simpl. rewrite lookup_delete_ne by done.
      rewrite lookup_alter_eq, Hacc. done.
    + exists st'. split; [done|]. split; [|split; [|split]].
      * rewrite Hdest. f_equal.
        rewrite (contents_of_agree (files st) (files st1)).
        -- unfold contents_of. simpl. rewrite Hdata. simpl. by rewrite app_assoc.
        -- intros p Hp. apply Hsame; congruence.
      * intros p [->|Hp]%elem_of_cons; [|by auto].
        destruct (for_each_consume_removes _ _ _ _ Hrun) as [_ Hkeep].
        apply Hkeep. simpl. apply lookup_delete_eq.
      * intros q [Hq1 Hq2]%not_elem_of_cons Hq3.
        rewrite Hother by done. by apply Hsame.
      * done.
Qed.

Lemma combine_parts_eq (file_name : string) (parts : list string) st :
  combine_parts file_name parts st =
  for_each parts (consume_part file_name)
    (with_files st (<[file_name := []]> (files st))).
Proof. reflexivity. Qed.

Lemma combine_parts_removes (file_name : string) (parts : list string) st st' :
  combine_parts file_name parts st = (st', Ok ()) →
  ∀ p, p ∈ parts → files st' !! p = None.
Proof.
  rewrite combine_parts_eq. intros Hrun.
  by apply for_each_consume_removes in Hrun as [? _].
Qed.

Lemma combine_parts_ok (file_name : string) (parts : list string) st :
  NoDup parts → file_name ∉ parts →
  (∀ p, p ∈ parts → is_Some (files st !! p)) →
  ∃ st',
    combine_parts file_name parts st = (st', Ok ()) ∧
    files st' !! file_name = Some (contents_of (files st) parts) ∧
    (∀ p, p ∈ parts → files st' !! p = None) ∧
    (∀ q, q ∉ parts → q ≠ file_name → files st' !! q = files st !! q) ∧
    sent st' = sent st ∧ stdout st' = stdout st.
Proof.
  intros Hnd Hf Hex. rewrite combine_parts_eq.
  set (st0 := with_files st _).
  assert (Hsame : ∀ q, q ≠ file_name → files st0 !! q = files st !! q).
  { intros q ?. simpl. by rewrite lookup_insert_ne. }
  destruct (for_each_consume_ok file_name parts st0 []) as
    (st' & Hrun & Hdest & Hgone & Hother & _ & Hsent & Hout); [done|done| | |].
  - intros p Hp. rewrite Hsame; [by apply Hex|]. congruence.
  - simpl. apply lookup_insert_eq.
  - exists st'. split; [done|]. split; [|split; [done|split; [|done]]].
    + rewrite Hdest. simpl. f_equal. apply contents_of_agree.
      intros p Hp. apply Hsame. congruence.
    + intros q Hq Hne. rewrite Hother by done. by apply Hsame.
Qed.

(** C8. Reassembly is destructive. Each part is removed by the very step
    that appends it; whenever [combine_parts] returns, every part of its list
    is gone; and it does return when the parts exist, are pairwise distinct
    and differ from the destination, which then holds their contents in list
    order, no other file having changed. *)
Theorem combine_parts_destructive (file_name : string) (parts : list string) st :
  (∀ part st1 st2,
     consume_part file_name part st1 = (st2, Ok ()) → files st2 !! part = None) ∧
  (∀ st', combine_parts file_name parts st = (st', Ok ()) →
     ∀ p, p ∈ parts → files st' !! p = None) ∧
  (NoDup parts → file_name ∉ parts →
   (∀ p, p ∈ parts → is_Some (files st !! p)) →
   ∃ st',
     combine_parts file_name parts st = (st', Ok ()) ∧
     files st' !! file_name = Some (contents_of (files st) parts) ∧
     (∀ p, p ∈ parts → files st' !! p = None) ∧
     (∀ q, q ∉ parts → q ≠ file_name → files st' !! q = files st !! q)).
Proof.
  split; [|split].
  - intros part st1 st2 Hstep. by apply consume_part_removes in Hstep as [? _].
  - intros st'. apply combine_parts_removes.
  - intros Hnd Hf Hex.
    destruct (combine_parts_ok file_name parts st Hnd Hf Hex)
      as (st' & ? & ? & ? & ? & _).
    by exists st'.
Qed.

Lemma combine_parts_destructive_witness :
  ∃ st',
    combine_parts "out" ["out.part0"; "out.part1"] two_parts_state = (st', Ok ()) ∧
    files st' !! "out" =
      Some (contents_of (files two_parts_state) ["out.part0"; "out.part1"]) ∧
    (∀ p, p ∈ ["out.part0"; "out.part1"] → files st' !! p = None) ∧
    (∀ q, q ∉ ["out.part0"; "out.part1"] → q ≠ "out" →
       files st' !! q = files two_parts_state !! q).
Proof.
  apply (proj2 (proj2
    (combine_parts_destructive "out" ["out.part0"; "out.part1"] two_parts_state))).
  - apply (bool_decide_unpack _). vm_compute. exact I.
  - apply (bool_decide_unpack _). vm_compute. exact I.
  - intros p Hp. apply elem_of_cons in Hp as [->|Hp]; [vm_compute; eauto|].
    apply elem_of_cons in Hp as [->|Hp]; [vm_compute; eauto|].
    by apply elem_of_nil in Hp.
Defined.

(** ** Requests are only ever added *)

Create HintDb sends.

Section SendsMore.
Context {A B : Type}.

Lemma sends_ret (a : A) : sends_more (ret a).
Proof. by intros st. Qed.

Lemma sends_raise (e : exn) : sends_more (raise (A := A) e).
Proof. by intros st. Qed.

Lemma sends_lift_result (r : result A) : sends_more (lift_result r).
Proof. by intros st. Qed.

Lemma sends_bind (m : M A) (k : A → M B) :
  sends_more m → (∀ a, sends_more (k a)) → sends_more (bind m k).
Proof.
  intros Hm Hk st. unfold bind. specialize (Hm st).
  destruct (m st) as [st' [a|e]]; simpl in *; [|done].
  etrans; [exact Hm|apply Hk].
Qed.

Lemma sends_try (m : M A) (handler : exn → M A) :
  sends_more m → (∀ e, sends_more (handler e)) →
  sends_more (try_except_Exception m handler).
Proof.
  intros Hm Hh st. unfold try_except_Exception. specialize (Hm st).
  destruct (m st) as [st' [a|e]]; simpl in *; [done|].
  destruct (is_Exception (exn_cls e)); [|done].
  etrans; [exact Hm|apply Hh].
Qed.

Lemma sends_future_run (m : M A) : sends_more m → sends_more (future_run m).
Proof.
  intros Hm st. unfold future_run. specialize (Hm st). by destruct (m st).
Qed.

End SendsMore.

Lemma sends_for_each {A} (l : list A) (body : A → M unit) :
  (∀ x, sends_more (body x)) → sends_more (for_each l body).
Proof.
  intros Hbody. induction l as [|x l IH]; simpl.
  - apply sends_ret.
  - apply sends_bind; auto.
Qed.

Lemma sends_run_pool {A} (futures : list (M A)) (order : list nat) :
  (∀ i call, futures !! i = Some call → sends_more call) →
  sends_more (run_pool futures order).
Proof.
  intros Hf. induction order as [|i order IH]; simpl.
  - by intros st.
  - destruct (futures !! i) as [call|] eqn:Hi; [|done].
    apply sends_bind; [apply sends_future_run; eauto|].
    intros r. apply sends_bind; [done|]. by intros rs st.
Qed.


Lemma sends_send (r : request) : sends_more (send r).
Proof. intros st. simpl. by apply prefix_app_r. Qed.

Lemma sends_print (line : string) : sends_more (print line).
Proof. by intros st. Qed.

Lemma sends_set_files f : sends_more (set_files f).
Proof. by intros st. Qed.

Lemma sends_read_file (path : string) : sends_more (read_file path).
Proof. intros st. unfold read_file. by destruct (files st !! path). Qed.

Lemma sends_os_remove (path : string) : sends_more (os_remove path).
Proof. intros st. unfold os_remove. by destruct (files st !! path). Qed.

Lemma sends_os_path_exists (path : string) : sends_more (os_path_exists path).
Proof. by intros st. Qed.

Lemma sends_os_makedirs w (path : string) : sends_more (os_makedirs w path).
Proof. intros st. unfold os_makedirs. by destruct (makedirs_error w path). Qed.

#[export] Hint Resolve sends_ret sends_raise sends_lift_result sends_bind
  sends_try sends_future_run sends_for_each sends_send sends_print
  sends_set_files sends_read_file sends_os_remove sends_os_path_exists
  sends_os_makedirs : sends.

Lemma sends_download_chunk w url start end_ file_name part_number :
  sends_more (download_chunk w url start end_ file_name part_number).
Proof.
  unfold download_chunk, raise_for_status, open_wb, file_write.
  apply sends_bind; [auto with sends|]. intros _.
  apply sends_bind; [auto with sends|]. intros r.
  destruct (status_error r), (stream_error r); auto 10 with sends.
Qed.

Lemma sends_combine_parts file_name parts : sends_more (combine_parts file_name parts).
Proof.
  unfold combine_parts, consume_part, open_wb, file_write. auto 10 with sends.
Qed.

Lemma sends_after_send {A} (r : request) (k : M A) st :
  sends_more k →
  ∃ more, sent (bind (send r) (λ _, k) st).1 = sent st ++ r :: more.
Proof.
  intros Hk. unfold bind, send.
  match goal with |- context [k ?st1] => destruct (Hk st1) as [more Hmore] end.
  destruct (k _) as [st' [a|e]]; simpl in *; exists more;
    by rewrite Hmore, <- app_assoc.
Qed.

(** The first thing [download_file] does is to ask for the size of [url]. *)
Lemma download_file_sends_head w url file_name num_threads st :
  ∃ more,
    sent (download_file w url file_name num_threads st).1
    = sent st ++ Head url :: more.
Proof.
  unfold download_file. apply sends_after_send.
  apply sends_bind; [auto with sends|]. intros header.
  apply sends_bind; [auto with sends|]. intros ranges.
  apply sends_bind.
  - apply sends_run_pool. intros i call [[s e] [_ ->]]%list_lookup_imap_Some.
    apply sends_download_chunk.
  - intros outcomes. pose proof sends_combine_parts. auto 10 with sends.
Qed.

Lemma sends_download_file w url file_name num_threads :
  sends_more (download_file w url file_name num_threads).
Proof.
  intros st.
  destruct (download_file_sends_head w url file_name num_threads st) as [more ->].
  by apply prefix_app_r.
Qed.

Lemma sends_try_download w base_url destination_folder num_threads file_name :
  sends_more (try_download w base_url destination_folder num_threads file_name).
Proof. unfold try_download. pose proof sends_download_file. auto with sends. Qed.

Lemma sends_download_link w base_url destination_folder num_threads href :
  sends_more (download_link w base_url destination_folder num_threads href).
Proof.
  unfold download_link. destruct href as [name|]; [|auto with sends].
  destruct (is_skipped (Some name)); [auto with sends|].
  apply sends_try_download.
Qed.

(** ** What can be raised *)

Create HintDb raises.

Lemma raises_ret {A} (a : A) : raises_Exception (ret a).
Proof. by intros st st' e. Qed.

Lemma raises_bind {A B} (m : M A) (k : A → M B) :
  raises_Exception m → (∀ a, raises_Exception (k a)) →
  raises_Exception (bind m k).
Proof.
  intros Hm Hk st st' e. unfold bind.
  destruct (m st) as [st1 [a|e1]] eqn:Hrun.
  - apply Hk.
  - intros [= <- <-]. by eapply Hm.
Qed.

Lemma raises_for_each {A} (l : list A) (body : A → M unit) :
  (∀ x, raises_Exception (body x)) → raises_Exception (for_each l body).
Proof.
  intros Hbody. induction l as [|x l IH]; simpl.
  - apply raises_ret.
  - apply raises_bind; auto.
Qed.

Lemma raises_send (r : request) : raises_Exception (send r).
Proof. by intros st st' e. Qed.

Lemma raises_print (line : string) : raises_Exception (print line).
Proof. by intros st st' e. Qed.

Lemma raises_set_files f : raises_Exception (set_files f).
Proof. by intros st st' e. Qed.

Lemma raises_read_file (path : string) : raises_Exception (read_file path).
Proof.
  intros st st' e. unfold read_file.
  destruct (files st !! path); [done|]. by intros [= _ <-].
Qed.

Lemma raises_os_remove (path : string) : raises_Exception (os_remove path).
Proof.
  intros st st' e. unfold os_remove.
  destruct (files st !! path); [done|]. by intros [= _ <-].
Qed.

#[export] Hint Resolve raises_ret raises_bind raises_for_each raises_send
  raises_print raises_set_files raises_read_file raises_os_remove : raises.








(** ** The batch loop *)

Lemma try_download_sends_head w base_url destination_folder num_threads file_name st :
  ∃ more,
    sent (try_download w base_url destination_folder num_threads file_name st).1
    = sent st ++ Head (base_url +:+ file_name) :: more.
Proof.
  unfold try_download, try_except_Exception.
  destruct (download_file_sends_head w (base_url +:+ file_name)
    (os_path_join destination_folder file_name) num_threads st) as [more Hmore].
  destruct (download_file _ _ _ _ st) as [st1 [[]|e]]; simpl in *; [eauto|].
  destruct (is_Exception (exn_cls e)); simpl; eauto.
Qed.





Lemma sends_download_directory w base_url destination_folder num_threads :
  sends_more (download_directory w base_url destination_folder num_threads).
Proof.
  unfold download_directory.
  apply sends_bind; [auto with sends|]. intros _.
  apply sends_bind; [auto with sends|]. intros text.
  apply sends_bind; [auto with sends|]. intros present.
  apply sends_bind; [destruct present; auto with sends|]. intros _.
  apply sends_for_each, sends_download_link.
Qed.






(** The run of the batch on [broken_first]: the refused file is reported,
    the next file of the listing is downloaded, the next URL is visited. *)
Example broken_first_run :
  let r := main broken_first "urls.txt" "dest" 2 init_state in
  r.2 = Ok () ∧
  sent r.1 =
    [GetPage archive_url;
     Head (archive_url +:+ "broken.bin");
     Head (archive_url +:+ "file1.zip");
     GetRange (archive_url +:+ "file1.zip") "bytes=0-1";
     GetRange (archive_url +:+ "file1.zip") "bytes=2-4";
     GetPage "https://example.com/other/"] ∧
  "Error al descargar broken.bin: Connection refused" ∈ stdout r.1 ∧
  files r.1 !! "dest/archive/file1.zip" = Some abcde.
Proof.
  vm_compute. repeat split. do 3 right. left.
Qed.




(** C10. The URL a file link is downloaded from is [base_url] followed by
    the href, character for character: the link's step is the guarded call
    of [download_file] on that string, and the request it opens with is the
    size request for it. *)
Theorem file_url_is_concatenation (w : World) (base_url destination_folder : string)
    (num_threads : Z) (file_name : string) (st : State) :
  is_skipped (Some file_name) = false →
  download_link w base_url destination_folder num_threads (Some file_name) st =
  try_except_Exception
    (download_file w (base_url +:+ file_name)
       (os_path_join destination_folder file_name) num_threads)
    (λ e, print ("Error al descargar " +:+ file_name +:+ ": " +:+ exn_msg e)) st ∧
  ∃ more,
    sent (download_link w base_url destination_folder num_threads
            (Some file_name) st).1
    = sent st ++ Head (base_url +:+ file_name) :: more.
Proof.
  intros Hskip. unfold download_link. rewrite Hskip. split; [done|].
  apply try_download_sends_head.
Qed.

Lemma file_url_is_concatenation_witness :
  download_link broken_first "https://example.com/data/archive" "dest" 2
    (Some "file1.zip") init_state =
  try_except_Exception
    (download_file broken_first "https://example.com/data/archivefile1.zip"
       (os_path_join "dest" "file1.zip") 2)
    (λ e, print ("Error al descargar " +:+ "file1.zip" +:+ ": " +:+ exn_msg e))
    init_state ∧
  ∃ more,
    sent (download_link broken_first "https://example.com/data/archive" "dest" 2
            (Some "file1.zip") init_state).1
    = sent init_state ++ Head "https://example.com/data/archivefile1.zip" :: more.
Proof.
  apply (file_url_is_concatenation broken_first
           "https://example.com/data/archive" "dest" 2 "file1.zip" init_state).
  reflexivity.
Defined.

(** ** A whole download *)

Lemma download_chunk_ok w url start end_ file_name part_number st :
  chunk_served w url (start, end_) →
  download_chunk w url start end_ file_name part_number st =
  ({| files := <[part_name file_name part_number :=
                   chunk_body w url (start, end_)]> (files st);
      dirs := dirs st;
      sent := sent st ++ [GetRange url (range_header start end_)];
      stdout := stdout st |},
   Ok (part_name file_name part_number)).
Proof.
  intros (resp & Hreq & Hstatus & Hstream). simpl in Hreq.
  unfold download_chunk, chunk_body, bind, send, lift_result, raise_for_status.
  simpl. rewrite Hreq, Hstatus, Hstream. simpl.
  by rewrite alter_insert_eq.
Qed.

Lemma collect_results_Ok {A B} (g : A → B) (l : list A) :
  collect_results ((λ x, Ok (g x)) <$> l) = Ok (g <$> l).
Proof.
  induction l as [|x l IH]; [done|].
  rewrite !fmap_cons. cbn [collect_results]. by rewrite IH.
Qed.

(** The pool on calls that all succeed: the outcomes are the part names in
    completion order, every part holds its range's bytes, and no other file
    has changed. *)
Lemma run_pool_ok w url file_name (ranges : list (Z * Z)) (order : list nat) st :
  NoDup order →
  (∀ i, i ∈ order → ∃ r, ranges !! i = Some r ∧ chunk_served w url r) →
  ∃ st1,
    run_pool
      (imap (λ i '(start, end_), download_chunk w url start end_ file_name i) ranges)
      order st
    = (st1, Ok ((λ i, Ok (part_name file_name i)) <$> order)) ∧
    (∀ i r, i ∈ order → ranges !! i = Some r →
       files st1 !! part_name file_name i = Some (chunk_body w url r)) ∧
    (∀ q, (∀ i, i ∈ order → q ≠ part_name file_name i) →
       files st1 !! q = files st !! q) ∧
    stdout st1 = stdout st.
Proof.
  revert st. induction order as [|i order IH]; intros st Hnd Hserved.
  - exists st. split; [done|]. split; [|done].
    intros i r Hi. by apply elem_of_nil in Hi.
  - apply NoDup_cons in Hnd as [Hi Hnd].
    destruct (Hserved i) as ([s e] & Hr & Hsrv); [by left|].
    simpl. rewrite list_lookup_imap, Hr. simpl.
    unfold bind at 1, future_run. rewrite download_chunk_ok by done.
    match goal with |- context [bind _ _ ?s] =>
      destruct (IH s) as (st1 & Hrun & Hparts & Hother & Hout) end; [done| |].
    { intros j Hj. apply Hserved. by right. }
    unfold bind. rewrite Hrun. exists st1. split; [done|].
    split; [|split; [|done]].
    + intros j r [->|Hj]%elem_of_cons Hrj; [|by eauto].
      rewrite Hother.
      * simpl. rewrite lookup_insert_eq. congruence.
      * intros k Hk Heq. apply part_name_inj in Heq. congruence.
    + intros q Hq. rewrite Hother.
      * simpl. apply lookup_insert_ne. intros Heq. by eapply Hq; [left|].
      * intros k Hk. apply Hq. by right.
Qed.

(** A download whose requests all succeed ends, and leaves in the
    destination the bytes of the ranges in the order their futures
    completed; the parts are gone. *)
Lemma download_file_ok w url file_name num_threads header ranges st :
  content_length w url = Ok header →
  partition_ranges (default 0%Z header) num_threads = Ok ranges →
  NoDup (as_completed w url (length ranges)) →
  (∀ i, i ∈ as_completed w url (length ranges) →
     ∃ r, ranges !! i = Some r ∧ chunk_served w url r) →
  ∃ st',
    download_file w url file_name num_threads st = (st', Ok ()) ∧
    files st' !! file_name =
      Some (mjoin ((λ i, from_option (chunk_body w url) [] (ranges !! i))
                   <$> as_completed w url (length ranges))) ∧
    ∀ i, i ∈ as_completed w url (length ranges) →
      files st' !! part_name file_name i = None.
Proof.
  intros Hhead Hranges Hnd Hserved.
  unfold download_file, bind at 1 2 3, send, lift_result.
  rewrite Hhead, Hranges, length_imap.
  set (order := as_completed w url (length ranges)) in *.
  match goal with |- context [bind _ _ ?s] =>
    destruct (run_pool_ok w url file_name ranges order s Hnd Hserved)
      as (st1 & Hrun & Hparts & Hother & Hout) end.
  unfold bind at 1. rewrite Hrun.
  unfold bind at 1, lift_result. rewrite collect_results_Ok.
  destruct (combine_parts_ok file_name (part_name file_name <$> order) st1)
    as (st2 & Hcomb & Hdest & Hgone & _).
  { apply NoDup_fmap_2; [apply part_name_inj|done]. }
  { intros (i & Heq & _)%list_elem_of_fmap. symmetry in Heq.
    by apply part_name_ne in Heq. }
  { intros p (i & -> & Hi)%list_elem_of_fmap.
    destruct (Hserved i Hi) as (r & Hr & _). rewrite (Hparts i r); eauto. }
  unfold bind, print. rewrite Hcomb. eexists. split; [done|]. simpl.
  split.
  - rewrite Hdest. f_equal. unfold contents_of. f_equal.
    rewrite <- list_fmap_compose. apply list_fmap_ext. intros k i Hk. simpl.
    assert (Hi : i ∈ order) by (by eapply list_elem_of_lookup_2).
    destruct (Hserved i Hi) as (r & Hr & _).
    by rewrite (Hparts i r), Hr.
  - intros i Hi. apply Hgone. by apply list_elem_of_fmap_2.
Qed.

Example download_file_ok_second_chunk_first :
  ∃ st',
    download_file (example_world abcde [1; 0] [] []) "u" "out" 2 init_state
    = (st', Ok ()) ∧
    files st' !! "out" =
      Some (slice abcde 2 4 ++ slice abcde 0 1 ++ []) ∧
    ∀ i, i ∈ [1; 0] → files st' !! part_name "out" i = None.
Proof.
  apply (download_file_ok (example_world abcde [1; 0] [] []) "u" "out" 2
           (Some 5%Z) [(0, 1); (2, 4)]%Z init_state); try reflexivity.
  - apply (bool_decide_unpack _). by vm_compute.
  - intros i Hi. apply elem_of_cons in Hi as [->|Hi].
    { eexists. split; [reflexivity|]. by eexists. }
    apply elem_of_cons in Hi as [->|Hi]; [|by apply elem_of_nil in Hi].
    eexists. split; [reflexivity|]. by eexists.
Qed.

(** C1, at an input that fails. A five-byte resource fetched with two
    threads: when the futures complete in index order the destination holds
    the resource; when the second chunk completes first the destination
    holds the second chunk followed by the first. *)
Theorem reassembly_follows_completion_order :
  (download_file (example_world abcde [0; 1] [] []) "u" "out" 2 init_state).2
  = Ok () ∧
  files (download_file (example_world abcde [0; 1] [] []) "u" "out" 2
           init_state).1 !! "out"
  = Some abcde ∧
  (download_file (example_world abcde [1; 0] [] []) "u" "out" 2 init_state).2
  = Ok () ∧
  files (download_file (example_world abcde [1; 0] [] []) "u" "out" 2
           init_state).1 !! "out"
  = Some [Byte.x63; Byte.x64; Byte.x65; Byte.x61; Byte.x62].
Proof. by vm_compute. Qed.

(** * Further properties of the script *)

(** ** Sizes of the chunks *)

Section ChunkSizes.
Local Open Scope Z_scope.

(** Every range but the last asks for [total_size // num_threads] bytes; the
    last one asks for that many plus the remainder of the division, which is
    less than [num_threads]. *)
Theorem last_chunk_takes_remainder (total_size num_threads : Z) ranges (i : nat) r :
  1 ≤ num_threads →
  partition_ranges total_size num_threads = Ok ranges →
  ranges !! i = Some r →
  range_len r =
    (if decide (Z.of_nat i = num_threads - 1)
     then total_size / num_threads + total_size mod num_threads
     else total_size / num_threads) ∧
  0 ≤ total_size mod num_threads < num_threads.
Proof.
  intros Hn Hranges Hr.
  apply (partition_ranges_lookup total_size num_threads ranges i r Hn Hranges)
    in Hr as [Hi ->].
  pose proof (Z.mod_pos_bound total_size num_threads ltac:(lia)) as Hmod.
  split; [|done]. unfold range_len. simpl.
  case_decide; [|lia].
  rewrite Z.mod_eq by lia. nia.
Qed.

Lemma last_chunk_takes_remainder_witness :
  range_len (6, 9) =
    (if decide (Z.of_nat 2 = 3 - 1) then 10 / 3 + 10 mod 3 else 10 / 3) ∧
  0 ≤ 10 mod 3 < 3.
Proof.
  apply (last_chunk_takes_remainder 10 3 [(0, 2); (3, 5); (6, 9)] 2 (6, 9));
    [lia|reflexivity|reflexivity].
Defined.

(** A resource shorter than the number of threads: the chunk size is zero,
    every range but the last is the empty [(0, -1)], and the last range alone
    spans the resource. *)
Theorem short_resource_ranges (total_size num_threads : Z) :
  0 ≤ total_size < num_threads →
  partition_ranges total_size num_threads =
  Ok (replicate (Z.to_nat (num_threads - 1)) (0, -1) ++ [(0, total_size - 1)]).
Proof.
  intros Ht. rewrite partition_ranges_closed by lia.
  rewrite Z.div_small by lia.
  by rewrite chunk_ranges_zero, Z.mul_0_r.
Qed.

Lemma short_resource_ranges_witness :
  partition_ranges 2 4 =
  Ok (replicate (Z.to_nat (4 - 1)) (0, -1) ++ [(0, 2 - 1)]).
Proof. apply (short_resource_ranges 2 4). lia. Defined.

(** The partition step fails exactly when the thread count is not positive:
    with [ZeroDivisionError] for zero, with [IndexError] below zero. *)
Theorem partition_ranges_errors (total_size num_threads : Z) :
  match partition_ranges total_size num_threads with
  | Ok ranges => 1 ≤ num_threads ∧ length ranges = Z.to_nat num_threads
  | Raise e =>
      (num_threads = 0 ∧ exn_cls e = ZeroDivisionError) ∨
      (num_threads < 0 ∧ exn_cls e = IndexError)
  end.
Proof.
  destruct (decide (1 ≤ num_threads)) as [Hn|Hn].
  - rewrite partition_ranges_closed by done. split; [done|].
    rewrite length_app, chunk_ranges_length. simpl. lia.
  - unfold partition_ranges, floordiv. case_decide; [left; by split|].
    unfold set_last_end, chunk_ranges, range.
    replace (Z.to_nat num_threads) with 0%nat by lia. simpl.
    right. split; [lia|done].
Qed.

End ChunkSizes.

(** ** One chunk *)

Lemma download_chunk_eq w url start end_ file_name part_number st :
  download_chunk w url start end_ file_name part_number st =
  ({| files := match chunk_part w url (start, end_) with
               | Some bytes => <[part_name file_name part_number := bytes]> (files st)
               | None => files st
               end;
      dirs := dirs st;
      sent := sent st ++ [GetRange url (range_header start end_)];
      stdout := stdout st |},
   chunk_outcome w url (start, end_) (part_name file_name part_number)).
Proof.
  unfold download_chunk, chunk_part, chunk_outcome, bind, send, lift_result,
    raise_for_status. simpl.
  destruct (requests_get_range w url start end_) as [resp|e]; [|done].
  destruct (status_error resp) as [e|]; [done|]. simpl.
  rewrite alter_insert_eq. simpl.
  by destruct (stream_error resp).
Qed.

Lemma chunk_served_outcome w url r part :
  chunk_served w url r →
  chunk_part w url r = Some (chunk_body w url r) ∧
  chunk_outcome w url r part = Ok part.
Proof.
  intros (resp & Hreq & Hstatus & Hstream).
  unfold chunk_part, chunk_outcome, chunk_body.
  by rewrite Hreq, Hstatus, Hstream.
Qed.


Lemma chunk_outcome_Ok w url r part p :
  chunk_outcome w url r part = Ok p → p = part.
Proof.
  unfold chunk_outcome.
  destruct (requests_get_range w url r.1 r.2) as [resp|e]; [|done].
  destruct (status_error resp), (stream_error resp); congruence.
Qed.

Lemma completed_cons ranges i order :
  completed ranges (i :: order) =
  match ranges !! i with
  | Some r => (i, r) :: completed ranges order
  | None => completed ranges order
  end.
Proof. unfold completed. simpl. by destruct (ranges !! i). Qed.

Lemma elem_of_completed ranges order i r :
  (i, r) ∈ completed ranges order ↔ i ∈ order ∧ ranges !! i = Some r.
Proof.
  unfold completed. rewrite list_elem_of_omap. split.
  - intros (j & Hj & Hsome). destruct (ranges !! j) eqn:E; [|done].
    simpl in Hsome. by simplify_eq.
  - intros [Hi Hr]. exists i. by rewrite Hr.
Qed.

(** ** The pool, whatever its calls do *)

Lemma run_pool_chunks w url file_name (ranges : list (Z * Z)) (order : list nat) st :
  ∃ st1,
    run_pool
      (imap (λ i '(start, end_), download_chunk w url start end_ file_name i) ranges)
      order st
    = (st1, Ok ((λ ir, chunk_outcome w url ir.2 (part_name file_name ir.1))
                <$> completed ranges order)) ∧
    sent st1 = sent st ++ chunk_requests url (completed ranges order) ∧
    stdout st1 = stdout st ∧ dirs st1 = dirs st ∧
    (∀ q, (∀ i, i ∈ order → q ≠ part_name file_name i) →
       files st1 !! q = files st !! q) ∧
    (NoDup order → ∀ i r, i ∈ order → ranges !! i = Some r →
       files st1 !! part_name file_name i =
       match chunk_part w url r with
       | Some bytes => Some bytes
       | None => files st !! part_name file_name i
       end).
Proof.
  revert st. induction order as [|i order IH]; intros st.
  - exists st. unfold chunk_requests. simpl. rewrite app_nil_r.
    repeat split; try done. intros _ i r Hi. by apply elem_of_nil in Hi.
  - rewrite completed_cons. simpl. rewrite list_lookup_imap.
    destruct (ranges !! i) as [[s e]|] eqn:Hr; simpl.
    + unfold bind at 1, future_run. rewrite download_chunk_eq.
      match goal with |- context [bind _ _ ?s] =>
        destruct (IH s) as (st1 & Hrun & Hsent & Hout & Hdirs & Hframe & Hparts) end.
      unfold bind. rewrite Hrun. exists st1. split; [done|].
      split; [|split; [done|split; [done|split]]].
      * rewrite Hsent. unfold chunk_requests. simpl. by rewrite <- app_assoc.
      * intros q Hq. rewrite Hframe by (intros k Hk; apply Hq; by right).
        simpl. destruct (chunk_part w url (s, e)); [|done].
        apply lookup_insert_ne. intros Heq. by eapply Hq; [left|].
      * intros [Hi Hnd]%NoDup_cons j r [->|Hj]%elem_of_cons Hrj.
        -- rewrite Hframe.
           ++ simpl. assert (r = (s, e)) as -> by congruence.
              destruct (chunk_part w url (s, e)); [|done].
              apply lookup_insert_eq.
           ++ intros k Hk Heq. apply part_name_inj in Heq. congruence.
        -- rewrite (Hparts Hnd j r Hj Hrj). simpl.
           destruct (chunk_part w url r); [done|].
           destruct (chunk_part w url (s, e)); [|done].
           apply lookup_insert_ne. intros Heq. apply part_name_inj in Heq.
           congruence.
    + destruct (IH st) as (st1 & Hrun & Hsent & Hout & Hdirs & Hframe & Hparts).
      exists st1. split; [done|]. split; [done|]. split; [done|]. split; [done|].
      split.
      * intros q Hq. apply Hframe. intros k Hk. apply Hq. by right.
      * intros [Hi Hnd]%NoDup_cons j r [->|Hj]%elem_of_cons Hrj; [congruence|].
        by apply Hparts.
Qed.

Lemma collect_results_Ok_elem {A} (outcomes : list (result A)) (l : list A) :
  collect_results outcomes = Ok l → ∀ a, a ∈ l → Ok a ∈ outcomes.
Proof.
  revert l. induction outcomes as [|[a0|e] outcomes IH]; intros l; simpl.
  - intros [= <-] a Ha. by apply elem_of_nil in Ha.
  - destruct (collect_results outcomes) as [l'|]; [|done].
    intros [= <-] a [->|Ha]%elem_of_cons; [by left|]. right. by eapply IH.
  - done.
Qed.


(** ** A download, step by step *)

(** After the size request and the partition, a download is the pool, then
    the collection of the outcomes, then reassembly and the message. *)
Lemma download_file_run w url file_name num_threads header ranges st :
  content_length w url = Ok header →
  partition_ranges (default 0%Z header) num_threads = Ok ranges →
  ∃ st1,
    sent st1 = sent st ++ Head url ::
      chunk_requests url (completed ranges (as_completed w url (length ranges))) ∧
    stdout st1 = stdout st ∧ dirs st1 = dirs st ∧
    (∀ q, (∀ i, i ∈ as_completed w url (length ranges) → q ≠ part_name file_name i) →
       files st1 !! q = files st !! q) ∧
    (NoDup (as_completed w url (length ranges)) →
     ∀ i r, i ∈ as_completed w url (length ranges) → ranges !! i = Some r →
       files st1 !! part_name file_name i =
       match chunk_part w url r with
       | Some bytes => Some bytes
       | None => files st !! part_name file_name i
       end) ∧
    download_file w url file_name num_threads st =
    match collect_results
            ((λ ir, chunk_outcome w url ir.2 (part_name file_name ir.1))
             <$> completed ranges (as_completed w url (length ranges))) with
    | Ok parts =>
        (exec combine_parts file_name parts then
         print (os_path_basename file_name +:+ " descargado con éxito.")) st1
    | Raise e => (st1, Raise e)
    end.
Proof.
  intros Hhead Hranges.
  destruct (run_pool_chunks w url file_name ranges
              (as_completed w url (length ranges)) (after_head st url))
    as (st1 & Hrun & Hsent & Hout & Hdirs & Hframe & Hparts).
  exists st1. split; [|split; [done|split; [done|split; [done|split; [done|]]]]].
  { rewrite Hsent. simpl. by rewrite <- app_assoc. }
  unfold download_file, bind at 1 2 3, send, lift_result.
  rewrite Hhead, Hranges, length_imap.
  fold (after_head st url). unfold bind at 1. rewrite Hrun.
  unfold bind at 1, lift_result.
  by destruct (collect_results _).
Qed.

Lemma for_each_consume_frame (file_name : string) (parts : list string) st q :
  q ≠ file_name → q ∉ parts →
  files (for_each parts (consume_part file_name) st).1 !! q = files st !! q ∧
  dirs (for_each parts (consume_part file_name) st).1 = dirs st ∧
  sent (for_each parts (consume_part file_name) st).1 = sent st ∧
  stdout (for_each parts (consume_part file_name) st).1 = stdout st.
Proof.
  intros Hq. revert st. induction parts as [|part parts IH]; intros st Hparts.
  - done.
  - apply not_elem_of_cons in Hparts as [Hne Hparts].
    rewrite for_each_cons, consume_part_eq.
    destruct (files st !! part) as [data|]; [|done].
    destruct (IH (with_files st
      (delete part (alter (λ old, old ++ data) file_name (files st)))) Hparts)
      as (Hf & Hd & Hs & Ho).
    destruct (for_each parts _ _) as [st' [[]|e]]; simpl in *;
      rewrite Hf, lookup_delete_ne, lookup_alter_ne by done; done.
Qed.

Lemma combine_parts_frame (file_name : string) (parts : list string) st q :
  q ≠ file_name → q ∉ parts →
  files (combine_parts file_name parts st).1 !! q = files st !! q ∧
  dirs (combine_parts file_name parts st).1 = dirs st ∧
  sent (combine_parts file_name parts st).1 = sent st ∧
  stdout (combine_parts file_name parts st).1 = stdout st.
Proof.
  intros Hq Hparts. rewrite combine_parts_eq.
  destruct (for_each_consume_frame file_name parts
    (with_files st (<[file_name := []]> (files st))) q Hq Hparts)
    as (-> & -> & -> & ->).
  simpl. by rewrite lookup_insert_ne.
Qed.

(** The parts handed to [combine_parts] are names of parts of this file. *)
Lemma collected_parts_are_parts w url file_name ranges order parts p :
  collect_results
    ((λ ir : nat * (Z * Z), chunk_outcome w url ir.2 (part_name file_name ir.1))
     <$> completed ranges order) = Ok parts →
  p ∈ parts → ∃ i, i ∈ order ∧ p = part_name file_name i.
Proof.
  intros Hcollect Hp.
  apply (collect_results_Ok_elem _ _ Hcollect) in Hp.
  apply list_elem_of_fmap in Hp as ([i r] & Hout & [Hi _]%elem_of_completed).
  symmetry in Hout. apply chunk_outcome_Ok in Hout. eauto.
Qed.

(** A download touches no file but its destination and its parts, and makes
    no directory, whatever the server answers and however it ends. *)
Theorem download_file_touches_own_files (w : World) (url file_name : string)
    (num_threads : Z) (st : State) (q : string) :
  q ≠ file_name → (∀ i, q ≠ part_name file_name i) →
  files (download_file w url file_name num_threads st).1 !! q = files st !! q ∧
  dirs (download_file w url file_name num_threads st).1 = dirs st.
Proof.
  intros Hq Hparts.
  destruct (content_length w url) as [header|e] eqn:Hhead.
  2: { unfold download_file, bind, send, lift_result. by rewrite Hhead. }
  destruct (partition_ranges (default 0%Z header) num_threads) as [ranges|e]
    eqn:Hranges.
  2: { unfold download_file, bind, send, lift_result. by rewrite Hhead, Hranges. }
  destruct (download_file_run w url file_name num_threads header ranges st
              Hhead Hranges) as (st1 & _ & _ & Hdirs & Hframe & _ & ->).
  destruct (collect_results _) as [parts|e] eqn:Hcollect.
  - destruct (combine_parts_frame file_name parts st1 q Hq) as (Hf & Hd & _).
    { intros Hin.
      destruct (collected_parts_are_parts _ _ _ _ _ _ _ Hcollect Hin)
        as (i & _ & ->). by eapply Hparts. }
    unfold bind, print.
    destruct (combine_parts file_name parts st1) as [st2 [[]|e]]; simpl in *;
      rewrite Hf, Hd, Hdirs, Hframe; auto.
  - simpl. rewrite Hdirs, Hframe; auto.
Qed.

Lemma download_file_touches_own_files_witness :
  files (download_file (flaky_world [1; 0]) "u" "out" 2 two_parts_state).1
    !! "other.bin" = files two_parts_state !! "other.bin" ∧
  dirs (download_file (flaky_world [1; 0]) "u" "out" 2 two_parts_state).1
  = dirs two_parts_state.
Proof.
  apply (download_file_touches_own_files (flaky_world [1; 0]) "u" "out" 2
           two_parts_state "other.bin").
  - done.
  - intros i Heq. cbv [part_name String.append] in Heq. discriminate.
Defined.

Lemma combine_parts_quiet (file_name : string) (parts : list string) st :
  sent (combine_parts file_name parts st).1 = sent st ∧
  stdout (combine_parts file_name parts st).1 = stdout st.
Proof.
  rewrite combine_parts_eq.
  set (st0 := with_files st _).
  change (sent st) with (sent st0). change (stdout st) with (stdout st0).
  clearbody st0. revert st0.
  induction parts as [|part parts IH]; intros st0; [done|].
  rewrite for_each_cons, consume_part_eq.
  destruct (files st0 !! part) as [data|]; [|done].
  apply (IH (with_files st0 _)).
Qed.

Lemma completed_valid ranges order :
  (∀ i, i ∈ order → is_Some (ranges !! i)) →
  (λ ir : nat * (Z * Z), ir.1) <$> completed ranges order = order.
Proof.
  induction order as [|i order IH]; intros Hvalid; [done|].
  rewrite completed_cons. destruct (Hvalid i) as [r ->]; [by left|].
  rewrite fmap_cons. simpl. f_equal. apply IH. intros j Hj. apply Hvalid. by right.
Qed.

Lemma completed_fmap {B} (g : Z * Z → B) (d : B) ranges order :
  (∀ i, i ∈ order → is_Some (ranges !! i)) →
  (λ ir : nat * (Z * Z), g ir.2) <$> completed ranges order =
  (λ i, from_option g d (ranges !! i)) <$> order.
Proof.
  induction order as [|i order IH]; intros Hvalid; [done|].
  rewrite completed_cons. destruct (Hvalid i) as [r Hr]; [by left|].
  rewrite Hr, !fmap_cons, Hr. simpl. f_equal.
  apply IH. intros j Hj. apply Hvalid. by right.
Qed.

Lemma permutation_of_indices (ranges : list (Z * Z)) (order : list nat) :
  order ≡ₚ seq 0 (length ranges) →
  NoDup order ∧ ∀ i, i ∈ order ↔ (i < length ranges)%nat.
Proof.
  intros Hperm. split.
  - rewrite Hperm. apply NoDup_seq.
  - intros i. rewrite Hperm, elem_of_seq. lia.
Qed.

(** The run of a download all of whose requests succeed, the futures
    completing in any order. *)
Lemma download_file_served_run (w : World) (url file_name : string) (num_threads : Z)
    (header : option Z) (ranges : list (Z * Z)) (st : State) :
  content_length w url = Ok header →
  partition_ranges (default 0%Z header) num_threads = Ok ranges →
  as_completed w url (length ranges) ≡ₚ seq 0 (length ranges) →
  (∀ r, r ∈ ranges → chunk_served w url r) →
  ∃ st',
    download_file w url file_name num_threads st = (st', Ok ()) ∧
    files st' !! file_name =
      Some (mjoin ((λ ir, chunk_body w url ir.2)
                   <$> completed ranges (as_completed w url (length ranges)))) ∧
    (∀ i, (i < length ranges)%nat → files st' !! part_name file_name i = None) ∧
    sent st' = sent st ++ Head url ::
      chunk_requests url (completed ranges (as_completed w url (length ranges))) ∧
    stdout st' =
      stdout st ++ [os_path_basename file_name +:+ " descargado con éxito."].
Proof.
  intros Hhead Hranges Hperm Hserved.
  set (order := as_completed w url (length ranges)) in *.
  destruct (permutation_of_indices ranges order Hperm) as [Hnd Hvalid].
  assert (Hlook : ∀ i, i ∈ order → is_Some (ranges !! i)).
  { intros i Hi. apply lookup_lt_is_Some. by apply Hvalid. }
  destruct (download_file_ok w url file_name num_threads header ranges st
              Hhead Hranges Hnd) as (st' & Hrun & Hdest & Hgone).
  { intros i Hi. destruct (Hlook i Hi) as [r Hr]. exists r. split; [done|].
    apply Hserved. by eapply list_elem_of_lookup_2. }
  exists st'. split; [done|]. split; [|split].
  - rewrite Hdest. do 2 f_equal. symmetry. by apply completed_fmap.
  - intros i Hi. apply Hgone. by apply Hvalid.
  - destruct (download_file_run w url file_name num_threads header ranges st
                Hhead Hranges) as (st1 & Hsent & Hout & _ & _ & _ & Heq).
    rewrite Hrun in Heq. fold order in Heq, Hsent.
    destruct (collect_results _) as [parts|e]; [|done].
    destruct (combine_parts_quiet file_name parts st1) as [Hs Ho].
    unfold bind, print in Heq.
    destruct (combine_parts file_name parts st1) as [st2 [[]|e]]; [|done].
    injection Heq as ->. simpl in *. by rewrite Hs, Ho, Hsent, Hout.
Qed.

Lemma example_world_serves data order anchors urls url r :
  chunk_served (example_world data order anchors urls) url r.
Proof. by eexists. Qed.



(** The run of that download: the cut part holds the one byte received, the
    other part its two bytes, and there is no destination. *)
Example flaky_run :
  let r := download_file (flaky_world [1; 0]) "u" "out" 2 init_state in
  r.2 = Raise cut_stream ∧
  files r.1 !! "out" = None ∧
  files r.1 !! "out.part0" = Some [Byte.x61; Byte.x62] ∧
  files r.1 !! "out.part1" = Some [Byte.x63].
Proof. by vm_compute. Qed.

(** ** A download that restores the resource *)

Lemma join_even_chunks {A} (l : list A) (c k : nat) :
  mjoin ((λ i, take c (drop (i * c) l)) <$> seq 0 k) = take (k * c) l.
Proof.
  induction k as [|k IH]; [done|].
  rewrite seq_S, fmap_app, join_app, IH. simpl. rewrite app_nil_r.
  rewrite take_take_drop. f_equal. lia.
Qed.

Lemma chunk_body_honoured w url data (start end_ : Z) :
  honours_ranges w url data → (0 ≤ start ≤ end_)%Z →
  chunk_served w url (start, end_) ∧
  chunk_body w url (start, end_) =
    take (Z.to_nat (end_ - start + 1)) (drop (Z.to_nat start) data).
Proof.
  intros Hw Hr. unfold chunk_served, chunk_body. simpl.
  rewrite (Hw start end_ Hr). split; [by eexists|done].
Qed.

(** The run of a download from a server that honours range requests, the
    futures completing in index order. *)
Lemma download_in_index_order_run (w : World) (url file_name : string)
    (num_threads : Z) (data : list Byte.byte) (st : State) :
  honours_ranges w url data →
  content_length w url = Ok (Some (Z.of_nat (length data))) →
  (1 ≤ num_threads ≤ Z.of_nat (length data))%Z →
  as_completed w url (Z.to_nat num_threads) = seq 0 (Z.to_nat num_threads) →
  ∃ st',
    download_file w url file_name num_threads st = (st', Ok ()) ∧
    files st' !! file_name = Some data.
Proof.
  intros Hw Hhead [Hn Hlen] Horder.
  set (total := Z.of_nat (length data)) in *.
  set (c := (total / num_threads)%Z).
  assert (Hc : (1 ≤ c ∧ num_threads * c ≤ total)%Z).
  { split; [apply Z.div_le_lower_bound; lia|apply Z.mul_div_le; lia]. }
  pose proof (partition_ranges_closed total num_threads Hn) as Hranges.
  fold c in Hranges.
  set (ranges := chunk_ranges c (num_threads - 1) ++ _) in Hranges.
  assert (Hlength : length ranges = Z.to_nat num_threads).
  { by eapply partition_ranges_length. }
  pose proof (λ i r, partition_ranges_lookup total num_threads ranges i r Hn Hranges)
    as Hlook. fold c in Hlook.
  destruct (download_file_ok w url file_name num_threads (Some total) ranges st
              Hhead Hranges) as (st' & Hrun & Hdest & _).
  { rewrite Hlength, Horder. apply NoDup_seq. }
  { rewrite Hlength, Horder. intros i [_ Hi]%elem_of_seq. eexists. split.
    - apply Hlook. split; [lia|done].
    - apply (chunk_body_honoured w url data); [done|]. case_decide; nia. }
  exists st'. split; [done|]. rewrite Hdest, Hlength, Horder. f_equal.
  replace (Z.to_nat num_threads) with (S (Z.to_nat (num_threads - 1))) by lia.
  set (k := Z.to_nat (num_threads - 1)).
  rewrite seq_S, fmap_app, join_app. simpl. rewrite app_nil_r.
  rewrite (list_fmap_ext _ (λ i, take (Z.to_nat c) (drop (i * Z.to_nat c) data))).
  - rewrite join_even_chunks.
    assert (Hk : ranges !! k = Some (Z.of_nat k * c, total - 1)%Z).
    { apply Hlook. split; [lia|]. rewrite decide_True by lia. done. }
    rewrite Hk. simpl.
    destruct (chunk_body_honoured w url data (Z.of_nat k * c) (total - 1) Hw)
      as [_ ->]; [nia|].
    replace (Z.to_nat (Z.of_nat k * c)) with (k * Z.to_nat c)%nat by nia.
    rewrite (take_ge (drop (k * Z.to_nat c) data)); [apply take_drop|].
    rewrite length_drop. unfold total. nia.
  - intros j i [Heq Hi]%lookup_seq. simpl in Heq. subst j.
    assert (Hr : ranges !! i =
                 Some (Z.of_nat i * c, (Z.of_nat i + 1) * c - 1)%Z).
    { apply Hlook. split; [lia|]. rewrite decide_False by lia. done. }
    rewrite Hr. simpl.
    destruct (chunk_body_honoured w url data (Z.of_nat i * c)
                ((Z.of_nat i + 1) * c - 1) Hw) as [_ ->]; [nia|].
    f_equal; [lia|]. f_equal. nia.
Qed.

Lemma example_world_honours data order anchors urls url :
  honours_ranges (example_world data order anchors urls) url data.
Proof.
  intros start end_ Hr. simpl. unfold served, slice.
  by rewrite decide_True.
Qed.

(** ** A thread count that is not positive *)

(** With a thread count of zero or less, the download of a file whose size
    request is answered stops at the partition step: nothing is fetched, no
    file is touched, and the [try] statement around it prints the error and
    returns. *)
Theorem nonpositive_threads_fetch_nothing (w : World)
    (base_url destination_folder : string) (num_threads : Z) (file_name : string)
    (header : option Z) (st : State) :
  (num_threads ≤ 0)%Z →
  content_length w (base_url +:+ file_name) = Ok header →
  ∃ e,
    exn_cls e =
      (if decide (num_threads = 0%Z) then ZeroDivisionError else IndexError) ∧
    try_download w base_url destination_folder num_threads file_name st =
    (with_line (after_head st (base_url +:+ file_name))
       ("Error al descargar " +:+ file_name +:+ ": " +:+ exn_msg e),
     Ok ()).
Proof.
  intros Hn Hhead.
  pose proof (partition_ranges_errors (default 0%Z header) num_threads) as Herr.
  destruct (partition_ranges (default 0%Z header) num_threads) as [ranges|e]
    eqn:Hranges; [lia|].
  exists e. split.
  - case_decide; destruct Herr as [[? ->]|[? ->]]; done || lia.
  - unfold try_download, try_except_Exception, download_file, bind, send,
      lift_result. rewrite Hhead, Hranges.
    assert (is_Exception (exn_cls e) = true) as ->; [|done].
    by destruct Herr as [[_ ->]|[_ ->]].
Qed.

Lemma nonpositive_threads_fetch_nothing_witness :
  ∃ e,
    exn_cls e = (if decide (0 = 0)%Z then ZeroDivisionError else IndexError) ∧
    try_download broken_first archive_url "dest" 0 "file1.zip" init_state =
    (with_line (after_head init_state (archive_url +:+ "file1.zip"))
       ("Error al descargar " +:+ "file1.zip" +:+ ": " +:+ exn_msg e),
     Ok ()).
Proof.
  apply (nonpositive_threads_fetch_nothing broken_first archive_url "dest" 0
           "file1.zip" (Some 5%Z) init_state).
  - lia.
  - reflexivity.
Defined.

(** ** Reassembly with a part that is not there *)




(** ** The destination folder on disk *)










(** The empty destination: with an empty base and a URL without a path the
    folder to make is [''], [os.makedirs] raises, and the exception leaves
    the batch and the script. *)
Example empty_destination_aborts :
  let r := main (example_world abcde [0; 1] [] ["https://example.com"])
             "urls.txt" "" 2 init_state in
  r.2 = Raise no_such_folder ∧ sent r.1 = [GetPage "https://example.com"].
Proof. by vm_compute. Qed.

(** ** The whole batch *)





(** ** The folder name, for every path *)

Lemma chars_nil (s : string) : String.list_ascii_of_string s = [] ↔ s = "".
Proof. by destruct s. Qed.

Lemma chars_rev_app (s1 s2 : string) :
  String.list_ascii_of_string (String.rev_app s1 s2) =
  reverse (String.list_ascii_of_string s1) ++ String.list_ascii_of_string s2.
Proof.
  revert s2. induction s1 as [|a s1 IH]; intros s2; [done|].
  simpl. rewrite IH, reverse_cons, <- app_assoc. done.
Qed.

Lemma chars_rev (s : string) :
  String.list_ascii_of_string (String.rev s) =
  reverse (String.list_ascii_of_string s).
Proof. unfold String.rev. by rewrite chars_rev_app, app_nil_r. Qed.

Lemma lstrip_char_head (c : Ascii.ascii) (s : string) :
  head (String.list_ascii_of_string (lstrip_char c s)) ≠ Some c.
Proof.
  induction s as [|a s IH]; [done|]. simpl.
  destruct (Ascii.eqb a c) eqn:Hac; [done|]. simpl.
  intros [= ->]. by rewrite Ascii.eqb_refl in Hac.
Qed.

Lemma lstrip_char_empty (c : Ascii.ascii) (s : string) :
  lstrip_char c s = "" ↔ Forall (λ a, a = c) (String.list_ascii_of_string s).
Proof.
  induction s as [|a s IH]; simpl.
  - split; [constructor|done].
  - rewrite Forall_cons. destruct (Ascii.eqb a c) eqn:Hac.
    + apply Ascii.eqb_eq in Hac. rewrite IH. tauto.
    + apply Ascii.eqb_neq in Hac. split; [done|]. by intros [? _].
Qed.

Lemma strip_char_empty (c : Ascii.ascii) (path : string) :
  strip_char c path = "" ↔ Forall (λ a, a = c) (String.list_ascii_of_string path).
Proof.
  unfold strip_char, rstrip_char.
  rewrite <- chars_nil, chars_rev.
  rewrite <- lstrip_char_empty. set (u := lstrip_char c path).
  split.
  - intros Hrev. apply (f_equal reverse) in Hrev.
    rewrite reverse_involutive, reverse_nil in Hrev.
    apply chars_nil, lstrip_char_empty in Hrev.
    rewrite chars_rev, Forall_reverse in Hrev.
    pose proof (lstrip_char_head c path) as Hhead. fold u in Hhead.
    apply chars_nil. destruct (String.list_ascii_of_string u) as [|a l]; [done|].
    apply Forall_cons in Hrev as [-> _]. by destruct Hhead.
  - intros ->. done.
Qed.

Lemma strip_char_last (c : Ascii.ascii) (path : string) :
  last (String.list_ascii_of_string (strip_char c path)) ≠ Some c.
Proof.
  unfold strip_char, rstrip_char. rewrite chars_rev, last_reverse.
  apply lstrip_char_head.
Qed.

Lemma split_char_single_empty (c : Ascii.ascii) (t : string) :
  split_char c t = [""] → t = "".
Proof.
  destruct t as [|a t]; [done|]. simpl.
  pose proof (split_char_nonempty c t) as Hne.
  destruct (Ascii.eqb a c); destruct (split_char c t); done.
Qed.

Lemma last_split_char_empty (c : Ascii.ascii) (t : string) :
  last (split_char c t) = Some "" ↔
  t = "" ∨ last (String.list_ascii_of_string t) = Some c.
Proof.
  induction t as [|a t IH]; [split; [by left|done]|].
  pose proof (split_char_nonempty c t) as Hne.
  pose proof (split_char_single_empty c t) as Hsingle.
  simpl split_char. simpl String.list_ascii_of_string.
  destruct (Ascii.eqb a c) eqn:Hac.
  - apply Ascii.eqb_eq in Hac as ->.
    destruct (split_char c t) as [|seg0 segs] eqn:Hsplit; [done|].
    rewrite last_cons_cons, IH, (last_cons c).
    destruct t as [|b t]; [intuition (discriminate || congruence)|].
    destruct (last (String.list_ascii_of_string (String b t))) eqn:Hlast;
      [intuition (discriminate || congruence)|].
    by apply last_None in Hlast.
  - apply Ascii.eqb_neq in Hac.
    destruct (split_char c t) as [|seg0 segs] eqn:Hsplit; [done|].
    rewrite (last_cons a).
    destruct segs as [|seg1 segs].
    + simpl. split; [done|]. intros [?|Hlast]; [done|].
      destruct (last (String.list_ascii_of_string t)) as [b|] eqn:Ht;
        [|intuition (discriminate || congruence)].
      injection Hlast as ->.
      assert (seg0 = "") as -> by (apply (inj Some), IH; by right).
      specialize (Hsingle eq_refl). subst t. done.
    + rewrite last_cons_cons, IH.
      destruct t as [|b t]; [done|].
      destruct (last (String.list_ascii_of_string (String b t))) eqn:Hlast;
        [intuition (discriminate || congruence)|].
      by apply last_None in Hlast.
Qed.

Lemma folder_name_last (path : string) :
  last (path_segments path) = Some (folder_name path).
Proof.
  unfold folder_name.
  pose proof (split_char_nonempty "/" (strip_char "/" path)) as Hne.
  unfold path_segments.
  destruct (split_char "/" (strip_char "/" path)) as [|seg segs]; [done|].
  rewrite last_cons. by destruct (last segs).
Qed.

(** The folder name is the empty string, so that the files of the URL go
    into the base destination itself, exactly when the path is made of
    slashes only, the empty path included. *)
Theorem folder_name_empty_iff (path : string) :
  folder_name path = "" ↔
  Forall (λ a, a = "/"%char) (String.list_ascii_of_string path).
Proof.
  rewrite <- strip_char_empty.
  pose proof (folder_name_last path) as Hlast.
  pose proof (strip_char_last "/" path) as Hstrip.
  pose proof (last_split_char_empty "/" (strip_char "/" path)) as Hsplit.
  unfold path_segments in Hlast. rewrite Hlast in Hsplit.
  split.
  - intros Hempty. rewrite Hempty in Hsplit.
    destruct (proj1 Hsplit eq_refl); done.
  - intros Hempty. apply (inj Some), Hsplit. by left.
Qed.

Lemma split_char_no_sep (c : Ascii.ascii) (s seg : string) :
  seg ∈ split_char c s → c ∉ String.list_ascii_of_string seg.
Proof.
  revert seg. induction s as [|a s IH]; intros seg.
  - intros ->%list_elem_of_singleton. apply not_elem_of_nil.
  - simpl. destruct (Ascii.eqb a c) eqn:Hac.
    + intros [->|Hseg]%elem_of_cons; [apply not_elem_of_nil|by apply IH].
    + apply Ascii.eqb_neq in Hac.
      destruct (split_char c s) as [|seg0 segs].
      * intros ->%list_elem_of_singleton. simpl.
        apply not_elem_of_cons. split; [done|apply not_elem_of_nil].
      * intros [->|Hseg]%elem_of_cons.
        -- simpl. apply not_elem_of_cons. split; [done|]. apply IH. by left.
        -- apply IH. by right.
Qed.

(** The folder name holds no slash. *)
Theorem folder_name_has_no_slash (path t u : string) :
  folder_name path ≠ t +:+ String "/" u.
Proof.
  intros Heq.
  pose proof (folder_name_last path) as Hlast.
  apply last_Some_elem_of, split_char_no_sep in Hlast.
  apply Hlast. rewrite Heq, list_ascii_of_append. simpl.
  apply elem_of_app. right. by left.
Qed.

(** ** Links that leave the destination folder *)

(** An href that starts with a slash and does not end with one is kept by
    the filter, and [os.path.join] drops the destination folder for it: the
    file is fetched from [base_url] followed by the href and written at the
    href itself. *)
Theorem absolute_href_ignores_destination (w : World)
    (base_url destination_folder : string) (num_threads : Z) (rest : string)
    (st : State) :
  endswith (String "/" rest) "/" = false →
  download_link w base_url destination_folder num_threads
    (Some (String "/" rest)) st =
  try_except_Exception
    (download_file w (base_url +:+ String "/" rest) (String "/" rest) num_threads)
    (λ e, print ("Error al descargar " +:+ String "/" rest +:+ ": " +:+ exn_msg e))
    st.
Proof.
  intros Hend. unfold download_link.
  assert (is_skipped (Some (String "/" rest)) = false) as ->.
  { apply is_skipped_false. repeat split; try done.
    intros t Ht. apply not_true_iff_false in Hend. apply Hend.
    apply endswith_spec. eauto. }
  unfold try_download.
  assert (os_path_join destination_folder (String "/" rest) = String "/" rest)
    as ->; [|done].
  unfold os_path_join.
  assert (startswith (String "/" rest) "/" = true) as ->; [|done].
  apply startswith_spec. by exists rest.
Qed.

Lemma absolute_href_ignores_destination_witness :
  download_link broken_first archive_url "dest" 2 (Some "/pub/file1.zip")
    init_state =
  try_except_Exception
    (download_file broken_first (archive_url +:+ "/pub/file1.zip")
       "/pub/file1.zip" 2)
    (λ e, print ("Error al descargar " +:+ "/pub/file1.zip" +:+ ": " +:+ exn_msg e))
    init_state.
Proof.
  apply (absolute_href_ignores_destination broken_first archive_url "dest" 2
           "pub/file1.zip" init_state).
  by vm_compute.
Defined.

(** ** A resource of unknown size *)

Lemma partition_ranges_zero (num_threads : Z) :
  (1 ≤ num_threads)%Z →
  partition_ranges 0 num_threads = Ok (replicate (Z.to_nat num_threads) (0, -1)%Z).
Proof.
  intros Hn. rewrite partition_ranges_closed by done.
  rewrite Z.div_0_l by lia. f_equal.
  replace (Z.to_nat num_threads) with (Z.to_nat (num_threads - 1) + 1)%nat by lia.
  rewrite replicate_add, chunk_ranges_zero. simpl. by rewrite Z.mul_0_r.
Qed.

Lemma fmap_lookup_replicate {A B} (g : A → B) (d : B) (x : A) (n : nat)
    (order : list nat) :
  (∀ i, i ∈ order → (i < n)%nat) →
  (λ i, from_option g d (replicate n x !! i)) <$> order =
  replicate (length order) (g x).
Proof.
  induction order as [|i order IH]; intros Hvalid; [done|].
  rewrite fmap_cons. simpl. rewrite IH by (intros j Hj; apply Hvalid; by right).
  rewrite lookup_replicate_2 by (apply Hvalid; by left). done.
Qed.

(** What a download that returns has sent and printed *)
Lemma download_file_trace w url file_name num_threads header ranges st st' :
  content_length w url = Ok header →
  partition_ranges (default 0%Z header) num_threads = Ok ranges →
  download_file w url file_name num_threads st = (st', Ok ()) →
  sent st' = sent st ++ Head url ::
    chunk_requests url (completed ranges (as_completed w url (length ranges))) ∧
  stdout st' =
    stdout st ++ [os_path_basename file_name +:+ " descargado con éxito."].
Proof.
  intros Hhead Hranges Hrun.
  destruct (download_file_run w url file_name num_threads header ranges st
              Hhead Hranges) as (st1 & Hsent & Hout & _ & _ & _ & Heq).
  rewrite Hrun in Heq.
  destruct (collect_results _) as [parts|e]; [|done].
  destruct (combine_parts_quiet file_name parts st1) as [Hs Ho].
  unfold bind, print in Heq.
  destruct (combine_parts file_name parts st1) as [st2 [[]|e]]; [|done].
  injection Heq as ->. simpl in *. by rewrite Hs, Ho, Hsent, Hout.
Qed.

(** The run of a download of a resource whose size is not announced *)
Lemma unknown_size_run (w : World) (url file_name : string)
    (num_threads : Z) (header : option Z) (data : list Byte.byte) (st : State) :
  content_length w url = Ok header →
  default 0%Z header = 0%Z →
  (1 ≤ num_threads)%Z →
  as_completed w url (Z.to_nat num_threads) ≡ₚ seq 0 (Z.to_nat num_threads) →
  requests_get_range w url 0 (-1) =
    Ok {| status_error := None; body := data; stream_error := None |} →
  ∃ st',
    download_file w url file_name num_threads st = (st', Ok ()) ∧
    files st' !! file_name = Some (mjoin (replicate (Z.to_nat num_threads) data)) ∧
    sent st' = sent st ++ Head url ::
      replicate (Z.to_nat num_threads) (GetRange url (range_header 0 (-1))).
Proof.
  intros Hhead Hzero Hn Hperm Hreq.
  assert (Hranges : partition_ranges (default 0%Z header) num_threads =
                    Ok (replicate (Z.to_nat num_threads) (0, -1)%Z)).
  { rewrite Hzero. by apply partition_ranges_zero. }
  set (N := Z.to_nat num_threads) in *.
  set (ranges := replicate N (0, -1)%Z) in *.
  assert (Hlength : length ranges = N) by apply length_replicate.
  assert (Hnd : NoDup (as_completed w url N)).
  { rewrite Hperm. apply NoDup_seq. }
  assert (Hvalid : ∀ i, i ∈ as_completed w url N → (i < N)%nat).
  { intros i. rewrite Hperm, elem_of_seq. lia. }
  assert (Horder : length (as_completed w url N) = N).
  { rewrite Hperm. apply length_seq. }
  assert (Hbody : chunk_body w url (0, -1)%Z = data).
  { unfold chunk_body. simpl. by rewrite Hreq. }
  destruct (download_file_ok w url file_name num_threads header ranges st
              Hhead Hranges) as (st' & Hrun & Hdest & _).
  { by rewrite Hlength. }
  { rewrite Hlength. intros i Hi. exists (0, -1)%Z. split.
    - apply lookup_replicate_2. by apply Hvalid.
    - by eexists. }
  exists st'. split; [done|]. split.
  - rewrite Hdest, Hlength. unfold ranges.
    by rewrite fmap_lookup_replicate, Horder, Hbody.
  - destruct (download_file_trace w url file_name num_threads header ranges st st'
                Hhead Hranges Hrun) as [-> _].
    rewrite Hlength. do 2 f_equal. unfold chunk_requests.
    rewrite (completed_fmap
      (λ r : Z * Z, GetRange url (range_header r.1 r.2)) (GetPage "")).
    + unfold ranges. by rewrite fmap_lookup_replicate, Horder.
    + intros i Hi. exists (0, -1)%Z. apply lookup_replicate_2. by apply Hvalid.
Qed.

(** ** What a download that has returned has done *)

Lemma collect_results_all_Ok {A} (outcomes : list (result A)) (l : list A) :
  collect_results outcomes = Ok l → ∀ o, o ∈ outcomes → ∃ a, o = Ok a.
Proof.
  revert l. induction outcomes as [|[a0|e] outcomes IH]; intros l; simpl.
  - intros _ o Ho. by apply elem_of_nil in Ho.
  - destruct (collect_results outcomes) as [l'|]; [|done].
    intros _ o [->|Ho]%elem_of_cons; [eauto|]. by eapply IH.
  - done.
Qed.

Lemma chunk_outcome_served w url r part p :
  chunk_outcome w url r part = Ok p → chunk_served w url r.
Proof.
  unfold chunk_outcome, chunk_served.
  destruct (requests_get_range w url r.1 r.2) as [resp|e]; [|done].
  destruct (status_error resp) eqn:Hstatus; [done|].
  destruct (stream_error resp) eqn:Hstream; [done|].
  intros _. by exists resp.
Qed.

(** A download returns only if every one of its fetches went through. *)
Lemma download_file_returned_served w url file_name num_threads header ranges
    st st' i r :
  content_length w url = Ok header →
  partition_ranges (default 0%Z header) num_threads = Ok ranges →
  download_file w url file_name num_threads st = (st', Ok ()) →
  i ∈ as_completed w url (length ranges) → ranges !! i = Some r →
  chunk_served w url r.
Proof.
  intros Hhead Hranges Hrun Hi Hr.
  destruct (download_file_run w url file_name num_threads header ranges st
              Hhead Hranges) as (st1 & _ & _ & _ & _ & _ & Heq).
  rewrite Hrun in Heq.
  destruct (collect_results _) as [parts|e] eqn:Hcollect; [|done].
  destruct (collect_results_all_Ok _ _ Hcollect
    (chunk_outcome w url r (part_name file_name i))) as [p Hp].
  { apply list_elem_of_fmap. exists (i, r). split; [done|].
    by apply elem_of_completed. }
  by eapply chunk_outcome_served.
Qed.

(** A download that has returned, the futures having completed in some
    order: every fetch went through; the destination, whatever it held,
    holds the bodies of the chunks in completion order; no part is left;
    the size request was sent first, then one range request per chunk; the
    success line is the last one printed. *)
Theorem download_file_success (w : World) (url file_name : string) (num_threads : Z)
    (header : option Z) (ranges : list (Z * Z)) (st st' : State) :
  content_length w url = Ok header →
  partition_ranges (default 0%Z header) num_threads = Ok ranges →
  as_completed w url (length ranges) ≡ₚ seq 0 (length ranges) →
  download_file w url file_name num_threads st = (st', Ok ()) →
  (∀ r, r ∈ ranges → chunk_served w url r) ∧
  files st' !! file_name =
    Some (mjoin ((λ ir, chunk_body w url ir.2)
                 <$> completed ranges (as_completed w url (length ranges)))) ∧
  (∀ i, (i < length ranges)%nat → files st' !! part_name file_name i = None) ∧
  (∃ reqs,
     sent st' = sent st ++ Head url :: reqs ∧
     reqs ≡ₚ chunk_requests url (completed ranges (seq 0 (length ranges)))) ∧
  stdout st' =
    stdout st ++ [os_path_basename file_name +:+ " descargado con éxito."].
Proof.
  intros Hhead Hranges Hperm Hrun.
  assert (Hserved : ∀ r, r ∈ ranges → chunk_served w url r).
  { intros r [i Hi]%list_elem_of_lookup.
    apply (download_file_returned_served w url file_name num_threads header
             ranges st st' i r Hhead Hranges Hrun); [|done].
    rewrite Hperm. apply elem_of_seq. apply lookup_lt_Some in Hi. lia. }
  split; [done|].
  destruct (download_file_served_run w url file_name num_threads header ranges st
              Hhead Hranges Hperm Hserved)
    as (st'' & Hrun' & Hdest & Hgone & Hsent & Hout).
  rewrite Hrun in Hrun'. injection Hrun' as <-.
  split; [done|]. split; [done|]. split; [|done].
  eexists. split; [exact Hsent|].
  unfold chunk_requests, completed. by rewrite Hperm.
Qed.

Lemma download_file_success_witness :
  (∀ r, r ∈ [(0, 1); (2, 4)]%Z →
     chunk_served (example_world abcde [1; 0] [] []) "u" r) ∧
  files (download_file (example_world abcde [1; 0] [] []) "u" "out" 2
           init_state).1 !! "out" =
    Some (mjoin ((λ ir, chunk_body (example_world abcde [1; 0] [] []) "u" ir.2)
                 <$> completed [(0, 1); (2, 4)]%Z [1; 0])) ∧
  (∀ i, (i < 2)%nat →
     files (download_file (example_world abcde [1; 0] [] []) "u" "out" 2
              init_state).1 !! part_name "out" i = None) ∧
  (∃ reqs,
     sent (download_file (example_world abcde [1; 0] [] []) "u" "out" 2
             init_state).1 = sent init_state ++ Head "u" :: reqs ∧
     reqs ≡ₚ chunk_requests "u" (completed [(0, 1); (2, 4)]%Z (seq 0 2))) ∧
  stdout (download_file (example_world abcde [1; 0] [] []) "u" "out" 2
            init_state).1 =
    stdout init_state ++ ["out" +:+ " descargado con éxito."].
Proof.
  apply (download_file_success (example_world abcde [1; 0] [] []) "u" "out" 2
           (Some 5%Z) [(0, 1); (2, 4)]%Z init_state).
  - reflexivity.
  - reflexivity.
  - simpl. apply Permutation_swap.
  - by vm_compute.
Defined.

(** Round trip. When the server honours range requests, the resource is at
    least as long as the number of threads, and the futures complete in
    index order, a download that has returned has left the resource in the
    destination, byte for byte. *)
Theorem download_in_index_order_restores (w : World) (url file_name : string)
    (num_threads : Z) (data : list Byte.byte) (st st' : State) :
  honours_ranges w url data →
  content_length w url = Ok (Some (Z.of_nat (length data))) →
  (1 ≤ num_threads ≤ Z.of_nat (length data))%Z →
  as_completed w url (Z.to_nat num_threads) = seq 0 (Z.to_nat num_threads) →
  download_file w url file_name num_threads st = (st', Ok ()) →
  files st' !! file_name = Some data.
Proof.
  intros Hw Hhead Hn Horder Hrun.
  destruct (download_in_index_order_run w url file_name num_threads data st
              Hw Hhead Hn Horder) as (st'' & Hrun' & Hdest).
  rewrite Hrun in Hrun'. by injection Hrun' as <-.
Qed.

Lemma download_in_index_order_restores_witness :
  files (download_file (example_world abcde [0; 1] [] []) "u" "out" 2
           init_state).1 !! "out" = Some abcde.
Proof.
  apply (download_in_index_order_restores (example_world abcde [0; 1] [] [])
           "u" "out" 2 abcde init_state).
  - apply example_world_honours.
  - reflexivity.
  - simpl. lia.
  - reflexivity.
  - by vm_compute.
Defined.

(** When the answer to the size request has no [content-length], or one of
    zero, every thread asks for the range [(0, -1)]; if the server answers
    that request with the bytes [data], a download that has returned has
    left [data] in the destination once per thread. *)
Theorem unknown_size_repeats_body (w : World) (url file_name : string)
    (num_threads : Z) (header : option Z) (data : list Byte.byte)
    (st st' : State) :
  content_length w url = Ok header →
  default 0%Z header = 0%Z →
  (1 ≤ num_threads)%Z →
  as_completed w url (Z.to_nat num_threads) ≡ₚ seq 0 (Z.to_nat num_threads) →
  requests_get_range w url 0 (-1) =
    Ok {| status_error := None; body := data; stream_error := None |} →
  download_file w url file_name num_threads st = (st', Ok ()) →
  files st' !! file_name = Some (mjoin (replicate (Z.to_nat num_threads) data)) ∧
  sent st' = sent st ++ Head url ::
    replicate (Z.to_nat num_threads) (GetRange url (range_header 0 (-1))).
Proof.
  intros Hhead Hzero Hn Hperm Hreq Hrun.
  destruct (unknown_size_run w url file_name num_threads header data st
              Hhead Hzero Hn Hperm Hreq) as (st'' & Hrun' & Hdest & Hsent).
  rewrite Hrun in Hrun'. by injection Hrun' as <-.
Qed.

Lemma unknown_size_repeats_body_witness :
  files (download_file (unsized_world [1; 0]) "u" "out" 2 init_state).1 !! "out"
  = Some (mjoin (replicate (Z.to_nat 2) abcde)) ∧
  sent (download_file (unsized_world [1; 0]) "u" "out" 2 init_state).1
  = sent init_state ++ Head "u" ::
    replicate (Z.to_nat 2) (GetRange "u" (range_header 0 (-1))).
Proof.
  apply (unknown_size_repeats_body (unsized_world [1; 0]) "u" "out" 2
           None abcde init_state).
  - reflexivity.
  - reflexivity.
  - lia.
  - simpl. apply Permutation_swap.
  - reflexivity.
  - by vm_compute.
Defined.

(** The folder name can be [..]: the files of such a URL go to the parent
    of the base destination. *)
Example folder_name_dot_dot : folder_name "/data/.." = "..".
Proof. reflexivity. Qed.
